(** * viki-cast-graph: the Graph builder of [build.ts]

    A shallow embedding of the class [Graph] of [build.ts] (the cast and
    series maps, the pruning at the end of [fetch], [processCast],
    [processSeries] and its two helpers), followed by the properties of the
    node/edge graph it builds.

    Modelling choices.
    - A JavaScript [Map<string, V>] iterates in insertion order and the order
      decides the order of the emitted nodes and edges, so it is an
      association list in insertion order ([JSMap]).
    - The object state ([this.cast], [this.series], [this.edges],
      [this.nodes]) is a record that every method takes and returns.
    - [(this.cast.get(k) as Cast).id] throws a [TypeError] when the key is
      absent; methods that can throw return an [option], [None] being the
      exception.
    - The network part is input data: [fetch] takes the list items, each
      with the cast page already scraped, in the order in which their
      promises complete.  The paging loop of [getList] is modelled on its
      own, over the answers of the service. *)

From Stdlib Require Import List String Bool Arith Lia.
Import ListNotations.

Local Open Scope string_scope.
Local Open Scope list_scope.
Local Open Scope nat_scope.

Set Implicit Arguments.

(** ** JavaScript [Map] with string keys *)

Module JSMap.
Section Defs.
Variable V : Type.

Definition t : Type := list (string * V).

Definition empty : t := [].

Fixpoint get (m : t) (k : string) : option V :=
  match m with
  | [] => None
  | (k', v) :: m' => if String.eqb k k' then Some v else get m' k
  end.

Definition has (m : t) (k : string) : bool :=
  match get m k with
  | Some _ => true
  | None => false
  end.

(** [set] keeps the position of a key that is already present and appends
    a new key at the end. *)
Fixpoint set (m : t) (k : string) (v : V) : t :=
  match m with
  | [] => [(k, v)]
  | (k', v') :: m' =>
      if String.eqb k k' then (k', v) :: m' else (k', v') :: set m' k v
  end.

Definition delete (m : t) (k : string) : t :=
  filter (fun e => negb (String.eqb k (fst e))) m.

Definition keys (m : t) : list string := map fst m.

Definition values (m : t) : list V := map snd m.

Definition size (m : t) : nat := List.length m.
End Defs.
End JSMap.

(** ** The data of [build.ts] *)

Module Cast.
Record t : Type := { id : string; name : string; url : string }.
End Cast.

Definition Casts : Type := JSMap.t Cast.t.

Module Serie.
Record t : Type := { id : string; name : string; cast : list string }.
End Serie.

Definition Series : Type := JSMap.t Serie.t.

Module Edge.
Record t : Type :=
  { from : string; to : string; label : option string; length : option nat }.
End Edge.

Module Node.
Record t : Type :=
  { id : string; label : string; shape : string; image : option string }.
End Node.

(** A list item as [fetch] sees it once [getCast(l.url.web)] has resolved:
    [l.id], [l.titles.en] and the scraped cast. *)
Module Item.
Record t : Type := { id : string; name : string; cast : list Cast.t }.
End Item.

(** [Array.prototype.includes] on an array of strings. *)
Definition includes (a : list string) (x : string) : bool :=
  existsb (String.eqb x) a.

(** ** The class [Graph] *)

Module Graph.
Record t : Type :=
  { cast : Casts;
    series : Series;
    edges : list Edge.t;
    nodes : list Node.t;
    id : string }.

Definition new (id : string) : t :=
  {| cast := JSMap.empty _; series := JSMap.empty _;
     edges := []; nodes := []; id := id |}.

Definition with_cast (g : t) (c : Casts) : t :=
  {| cast := c; series := series g; edges := edges g; nodes := nodes g;
     id := id g |}.

Definition with_series (g : t) (s : Series) : t :=
  {| cast := cast g; series := s; edges := edges g; nodes := nodes g;
     id := id g |}.

Definition push_edge (g : t) (e : Edge.t) : t :=
  {| cast := cast g; series := series g; edges := edges g ++ [e];
     nodes := nodes g; id := id g |}.

Definition push_node (g : t) (n : Node.t) : t :=
  {| cast := cast g; series := series g; edges := edges g;
     nodes := nodes g ++ [n]; id := id g |}.

(** *** [fetch] *)

(** The body of the [list.map(async l => ...)] callback after its [await]:
    merge the scraped cast into [this.cast], then record the serie. *)
Definition ingest (g : t) (l : Item.t) : t :=
  let c := Item.cast l in
  let g1 :=
    with_cast g
      (fold_left (fun m v => JSMap.set m (Cast.id v) v) c (cast g)) in
  with_series g1
    (JSMap.set (series g1) (Item.id l)
       {| Serie.id := Item.id l; Serie.name := Item.name l;
          Serie.cast := map Cast.id c |}).

(** [[...this.series.values()].filter(s => s.cast.includes(id)).length] *)
Definition recurrence (s : Series) (id : string) : nat :=
  List.length
    (filter (fun x => includes (Serie.cast x) id) (JSMap.values s)).

(** [this.cast.forEach(c => { if (...) this.cast.delete(c.id) })].
    [Map.prototype.forEach] walks the entries in insertion order and does
    not visit an entry deleted before it is reached: [pending] is what is
    left to walk, [m] is the map as the callbacks have left it. *)
Fixpoint pruneCast (s : Series) (pending : list (string * Cast.t))
    (m : Casts) : Casts :=
  match pending with
  | [] => m
  | (k, _) :: rest =>
      match JSMap.get m k with
      | None => pruneCast s rest m
      | Some c =>
          if recurrence s (Cast.id c) <=? 1
          then pruneCast s rest (JSMap.delete m (Cast.id c))
          else pruneCast s rest m
      end
  end.

(** [this.series.forEach(s => { s.cast = s.cast.filter(c => this.cast.has(c)) })] *)
Definition pruneSeries (m : Casts) (s : Series) : Series :=
  map (fun e =>
         (fst e,
          {| Serie.id := Serie.id (snd e); Serie.name := Serie.name (snd e);
             Serie.cast := filter (JSMap.has m) (Serie.cast (snd e)) |}))
      s.

(** The two [forEach] loops that end [fetch]. *)
Definition prune (g : t) : t :=
  let g1 := with_cast g (pruneCast (series g) (cast g) (cast g)) in
  with_series g1 (pruneSeries (cast g1) (series g1)).

Definition fetch (g : t) (list : list Item.t) : t :=
  prune (fold_left ingest list g).

(** *** [processCast] *)

Definition castNode (c : Cast.t) : Node.t :=
  {| Node.id := Cast.id c; Node.label := Cast.name c;
     Node.shape := "circularImage"; Node.image := Some (Cast.url c) |}.

Definition processCast (g : t) : t :=
  fold_left (fun g c => push_node g (castNode c)) (JSMap.values (cast g)) g.

(** *** [processSeries] *)

Definition processSeriesMutipleEdges (g : t) (serie : Serie.t) : t :=
  let g1 :=
    push_node g
      {| Node.id := Serie.id serie; Node.label := Serie.name serie;
         Node.shape := "text"; Node.image := None |} in
  fold_left
    (fun g id =>
       push_edge g
         {| Edge.from := Serie.id serie; Edge.to := id;
            Edge.label := None; Edge.length := None |})
    (Serie.cast serie) g1.

(** [this.cast.get(serie.cast[i])]: an index out of range reads
    [undefined], which is no key of the map. *)
Definition castAt (g : t) (serie : Serie.t) (i : nat) : option Cast.t :=
  match nth_error (Serie.cast serie) i with
  | Some k => JSMap.get (cast g) k
  | None => None
  end.

(** [None] is the [TypeError] of reading [.id] of [undefined]. *)
Definition processSeriesSingleEdge (g : t) (serie : Serie.t) : option t :=
  match castAt g serie 0 with
  | None => None
  | Some c0 =>
      match castAt g serie 1 with
      | None => None
      | Some c1 =>
          Some (push_edge g
                  {| Edge.from := Cast.id c0; Edge.to := Cast.id c1;
                     Edge.label := Some (Serie.name serie);
                     Edge.length := None |})
      end
  end.

(** The callback of [this.series.forEach] in [processSeries]. *)
Definition processSerie (g : t) (serie : Serie.t) : option t :=
  if List.length (Serie.cast serie) =? 2 then
    processSeriesSingleEdge g serie
  else if negb (List.length (Serie.cast serie) =? 0) then
    Some (processSeriesMutipleEdges g serie)
  else
    Some g.

(** A [forEach] whose callback can throw: the first exception ends it. *)
Fixpoint forEachSerie (l : list Serie.t) (g : t) : option t :=
  match l with
  | [] => Some g
  | serie :: l' =>
      match processSerie g serie with
      | None => None
      | Some g' => forEachSerie l' g'
      end
  end.

Definition processSeries (g : t) : option t :=
  forEachSerie (JSMap.values (series g)) g.

(** *** The script: [new Graph], [fetch], [processCast], [processSeries] *)

Definition classify (g : t) : option t := processSeries (processCast g).

Definition build (id : string) (list : list Item.t) : option t :=
  classify (fetch (new id) list).
End Graph.

(** ** Invariants of the state, as decidable checks *)

(** A [Map] never holds a key twice. *)
Fixpoint uniqueKeys (V : Type) (m : JSMap.t V) : bool :=
  match m with
  | [] => true
  | (k, _) :: m' => negb (JSMap.has m' k) && uniqueKeys m'
  end.

(** [fetch] files every cast member under its own id
    ([this.cast.set(v.id, v)]). *)
Definition keyedById (m : Casts) : bool :=
  forallb (fun e => String.eqb (fst e) (Cast.id (snd e))) m.

(** Every id of every roster is a key of the cast map. *)
Definition consistent (g : Graph.t) : bool :=
  forallb (fun s => forallb (JSMap.has (Graph.cast g)) (Serie.cast s))
    (JSMap.values (Graph.series g)).

(** What ingestion maintains on the cast map. *)
Definition castOk (m : Casts) : bool := uniqueKeys m && keyedById m.

(** The entries a walk over [pending] deletes: those filed under a key of
    [pending] that at most one serie references. *)
Definition doomed (s : Series) (pending : list (string * Cast.t))
    (e : string * Cast.t) : bool :=
  existsb
    (fun p => String.eqb (fst p) (fst e) && (Graph.recurrence s (fst p) <=? 1))
    pending.

(** The state in which [fetch] leaves the object. *)
Definition pruned (g : Graph.t) : bool :=
  uniqueKeys (Graph.cast g) && keyedById (Graph.cast g) && consistent g.

(** ** What a run pushes *)

(** [g] with [ns] pushed on its nodes and [es] on its edges. *)
Definition emit (g : Graph.t) (ns : list Node.t) (es : list Edge.t) : Graph.t :=
  {| Graph.cast := Graph.cast g; Graph.series := Graph.series g;
     Graph.edges := Graph.edges g ++ es; Graph.nodes := Graph.nodes g ++ ns;
     Graph.id := Graph.id g |}.

Definition pushed (g : Graph.t) (p : list Node.t * list Edge.t) : Graph.t :=
  emit g (fst p) (snd p).

Definition hubNode (s : Serie.t) : Node.t :=
  {| Node.id := Serie.id s; Node.label := Serie.name s;
     Node.shape := "text"; Node.image := None |}.

Definition hubEdge (s : Serie.t) (id : string) : Edge.t :=
  {| Edge.from := Serie.id s; Edge.to := id;
     Edge.label := None; Edge.length := None |}.

Definition directEdge (s : Serie.t) (a b : string) : Edge.t :=
  {| Edge.from := a; Edge.to := b;
     Edge.label := Some (Serie.name s); Edge.length := None |}.

(** The nodes and edges one serie contributes in a pruned state. *)
Definition serieNodes (s : Serie.t) : list Node.t :=
  match Serie.cast s with
  | [] => []
  | [_; _] => []
  | _ => [hubNode s]
  end.

Definition serieEdges (s : Serie.t) : list Edge.t :=
  match Serie.cast s with
  | [a; b] => [directEdge s a b]
  | l => map (hubEdge s) l
  end.

(** The same for any state, where a lookup can fail: the nodes and edges
    [processSerie] pushes, as a function of the cast map and the serie. *)
Definition serieEmission (c : Casts) (s : Serie.t)
  : option (list Node.t * list Edge.t) :=
  match Serie.cast s with
  | [] => Some ([], [])
  | [a; b] =>
      match JSMap.get c a, JSMap.get c b with
      | Some ca, Some cb =>
          Some ([], [directEdge s (Cast.id ca) (Cast.id cb)])
      | _, _ => None
      end
  | l => Some ([hubNode s], map (hubEdge s) l)
  end.

Fixpoint seriesEmission (c : Casts) (l : list Serie.t)
  : option (list Node.t * list Edge.t) :=
  match l with
  | [] => Some ([], [])
  | s :: l' =>
      match serieEmission c s, seriesEmission c l' with
      | Some (n1, e1), Some (n2, e2) => Some (n1 ++ n2, e1 ++ e2)
      | _, _ => None
      end
  end.

Definition isCircular (n : Node.t) : bool :=
  String.eqb (Node.shape n) "circularImage".

(** [n] is the circular-image node with id [i]. *)
Definition castNodeOf (i : string) (n : Node.t) : bool :=
  String.eqb (Node.id n) i && isCircular n.

Definition nodeIds (g : Graph.t) : list string := map Node.id (Graph.nodes g).

(** ** Sample inputs *)

Definition person (i : string) : Cast.t :=
  {| Cast.id := i; Cast.name := "name-" ++ i; Cast.url := "img/" ++ i |}.

(** X plays in shows 1 and 2, Y in show 1 only. *)
Definition scenarioA : list Item.t :=
  [ {| Item.id := "1"; Item.name := "Show1";
       Item.cast := [person "X"; person "Y"] |};
    {| Item.id := "2"; Item.name := "Show2"; Item.cast := [person "X"] |} ].

(** Show 1 keeps A and B, shows 2 and 3 keep A, B and C; D is pruned. *)
Definition scenarioBC : list Item.t :=
  [ {| Item.id := "1"; Item.name := "Show1";
       Item.cast := [person "A"; person "B"] |};
    {| Item.id := "2"; Item.name := "Show2";
       Item.cast := [person "A"; person "B"; person "C"; person "D"] |};
    {| Item.id := "3"; Item.name := "Show3";
       Item.cast := [person "C"; person "A"; person "B"] |} ].

(** Two shows with nobody in common: every roster is empty after [fetch]. *)
Definition scenarioD : list Item.t :=
  [ {| Item.id := "1"; Item.name := "Show1"; Item.cast := [person "P"] |};
    {| Item.id := "2"; Item.name := "Show2"; Item.cast := [person "Q"] |} ].

Definition show1 : Serie.t :=
  {| Serie.id := "1"; Serie.name := "Show1"; Serie.cast := ["A"; "B"] |}.

Definition show2 : Serie.t :=
  {| Serie.id := "2"; Serie.name := "Show2"; Serie.cast := ["A"; "B"; "C"] |}.

(** ** [getList] *)

(** What [new URL(input, base)] was given, and its [searchParams]. *)
Module Url.
Record t : Type :=
  { input : string; base : string; searchParams : JSMap.t string }.
End Url.

(** The body of an answer of the list API, as [getList] reads it:
    [d.response] and [d.more]. *)
Module Page.
Record t (A : Type) : Type := { response : list A; more : bool }.
End Page.

(** The URL [getList] builds; [page] is no part of it. *)
Definition listUrl (id : string) : Url.t :=
  let url :=
    {| Url.input := "lists/" ++ id ++ ".json";
       Url.base := "https://api.viki.io/v4/";
       Url.searchParams := JSMap.empty _ |} in
  let url :=
    {| Url.input := Url.input url; Url.base := Url.base url;
       Url.searchParams := JSMap.set (Url.searchParams url) "app" "100000a" |}
  in
  {| Url.input := Url.input url; Url.base := Url.base url;
     Url.searchParams := JSMap.set (Url.searchParams url) "per_page" "50" |}.

(** [getList(id, page, data)].  [fetchCache n url] is the parsed answer to
    the request for [url] when [n] requests went before it: the service may
    answer the same URL differently each time.  The recursion is on fuel,
    [None] being a run that has not returned when the fuel is spent. *)
Fixpoint getList (A : Type) (fetchCache : nat -> Url.t -> Page.t A)
    (fuel : nat) (sent : nat) (id : string) (page : nat) (data : list A)
  : option (list A) :=
  match fuel with
  | 0 => None
  | S fuel' =>
      let url := listUrl id in
      let d := fetchCache sent url in
      let data := data ++ Page.response d in
      if Page.more d
      then getList fetchCache fuel' (S sent) id (page + 1) data
      else Some data
  end.

(** The pages a run reads: the answers to requests [sent], [sent + 1], ...
    for the one URL of the list. *)
Definition pagesRead (A : Type) (fetchCache : nat -> Url.t -> Page.t A)
    (id : string) (sent n : nat) : list A :=
  flat_map (fun k => Page.response (fetchCache k (listUrl id))) (seq sent n).

(** A service that has a second page but is never asked for it: it answers
    by the [page] parameter of the URL, the first page when there is none. *)
Definition byPageParam (n : nat) (url : Url.t) : Page.t string :=
  match JSMap.get (Url.searchParams url) "page" with
  | Some "2" => {| Page.response := ["c"]; Page.more := false |}
  | _ => {| Page.response := ["a"; "b"]; Page.more := true |}
  end.

(** A service that keeps count of the requests itself. *)
Definition byRequestCount (n : nat) (url : Url.t) : Page.t string :=
  if n <? 2
  then {| Page.response := ["a"; "b"]; Page.more := true |}
  else {| Page.response := ["c"]; Page.more := false |}.

(** ** More on the state of [Graph] *)

(** [c.forEach(v => this.cast.set(v.id, v))] *)
Definition mergeCast (c : list Cast.t) (m : Casts) : Casts :=
  fold_left (fun m v => JSMap.set m (Cast.id v) v) c m.

(** The object when every promise of [fetch] has completed, before the two
    pruning loops. *)
Definition ingested (id : string) (list : list Item.t) : Graph.t :=
  fold_left Graph.ingest list (Graph.new id).

(** [fetch] files every serie under its own id
    ([this.series.set(l.id, { id: l.id, ... })]). *)
Definition seriesById (s : Series) : bool :=
  forallb (fun e => String.eqb (fst e) (Serie.id (snd e))) s.

(** On the roster of two series or more. *)
Definition recurring (s : Series) (k : string) : bool :=
  2 <=? Graph.recurrence s k.

(** The edge [e] has [i] at one of its ends. *)
Definition touches (i : string) (e : Edge.t) : bool :=
  String.eqb (Edge.from e) i || String.eqb (Edge.to e) i.

Definition degree (i : string) (es : list Edge.t) : nat :=
  List.length (filter (touches i) es).

(** The graph the script builds on scenario B and C. *)
Definition builtBC : Graph.t :=
  match Graph.build "L" scenarioBC with
  | Some r => r
  | None => Graph.new "L"
  end.

(** The serie [fetch] records for a list item. *)
Definition serieOf (l : Item.t) : Serie.t :=
  {| Serie.id := Item.id l; Serie.name := Item.name l;
     Serie.cast := map Cast.id (Item.cast l) |}.

(** In how many items of the list the scraped cast has a member with id
    [k]. *)
Definition mentions (list : list Item.t) (k : string) : nat :=
  List.length
    (filter (fun l => includes (map Cast.id (Item.cast l)) k) list).

(** * Properties *)

(** ** The map operations *)

Section JSMapFacts.
Variable V : Type.
Implicit Types (m : JSMap.t V) (k : string) (v : V).

Lemma get_In m k v : JSMap.get m k = Some v -> In (k, v) m.
Proof.
  induction m as [|[k' v'] m IH]; simpl; [discriminate|].
  destruct (String.eqb_spec k k') as [->|_].
  - intros [= ->]. now left.
  - intros H. right. now apply IH.
Qed.

Lemma has_keys m k : JSMap.has m k = true <-> In k (JSMap.keys m).
Proof.
  unfold JSMap.has.
  induction m as [|[k' v'] m IH]; simpl.
  - split; [discriminate | tauto].
  - destruct (String.eqb_spec k k') as [->|Hne].
    + split; auto.
    + rewrite IH. split; [now right | intros [E|H]; congruence].
Qed.

Lemma has_get m k : JSMap.has m k = true -> exists v, JSMap.get m k = Some v.
Proof.
  unfold JSMap.has. destruct (JSMap.get m k) as [v|]; [eauto | discriminate].
Qed.

Lemma has_false_get m k : JSMap.has m k = false -> JSMap.get m k = None.
Proof.
  unfold JSMap.has. now destruct (JSMap.get m k).
Qed.

Lemma uniqueKeys_NoDup m : uniqueKeys m = true <-> NoDup (JSMap.keys m).
Proof.
  induction m as [|[k v] m IH]; simpl.
  - split; [constructor | reflexivity].
  - rewrite andb_true_iff, negb_true_iff, IH. split.
    + intros [Hk Hm]. constructor; [|assumption].
      rewrite <- has_keys. congruence.
    + intros H. inversion H as [|? ? Hk Hm]; subst. split; [|assumption].
      destruct (JSMap.has m k) eqn:E; [|reflexivity].
      apply has_keys in E. contradiction.
Qed.

Lemma keys_set m k v :
  JSMap.keys (JSMap.set m k v)
  = if JSMap.has m k then JSMap.keys m else JSMap.keys m ++ [k].
Proof.
  unfold JSMap.has.
  induction m as [|[k' v'] m IH]; simpl; [reflexivity|].
  destruct (String.eqb k k'); simpl; [reflexivity|].
  rewrite IH. now destruct (JSMap.get m k).
Qed.

Lemma uniqueKeys_set m k v :
  uniqueKeys m = true -> uniqueKeys (JSMap.set m k v) = true.
Proof.
  rewrite !uniqueKeys_NoDup, keys_set.
  destruct (JSMap.has m k) eqn:E; [trivial|].
  intros H. apply NoDup_app; [assumption | repeat constructor; simpl; tauto |].
  intros x Hx [<-|[]]. apply has_keys in Hx. congruence.
Qed.

Lemma uniqueKeys_filter (f : string * V -> bool) m :
  uniqueKeys m = true -> uniqueKeys (filter f m) = true.
Proof.
  rewrite !uniqueKeys_NoDup. unfold JSMap.keys.
  induction m as [|e m IH]; simpl; [trivial|].
  intros H. inversion H as [|? ? Hk Hm]; subst.
  destruct (f e); simpl; [|auto].
  constructor; [|auto].
  intros Hin. apply Hk. apply in_map_iff in Hin as [x [Hx Hin]].
  apply filter_In in Hin as [Hin _]. apply in_map_iff. eauto.
Qed.

Lemma In_set m k v e :
  In e (JSMap.set m k v) -> e = (k, v) \/ In e m.
Proof.
  induction m as [|[k' v'] m IH]; simpl.
  - intros [<-|[]]. now left.
  - destruct (String.eqb_spec k k') as [->|_]; simpl.
    + intros [<-|H]; auto.
    + intros [<-|H]; auto. destruct (IH H); auto.
Qed.
End JSMapFacts.

(** ** Pruning *)

Lemma filter_all (A : Type) (l : list A) : filter (fun _ => true) l = l.
Proof. induction l; simpl; congruence. Qed.

Lemma filter_twice (A : Type) (f h : A -> bool) (l : list A) :
  filter f (filter h l) = filter (fun x => h x && f x) l.
Proof.
  induction l as [|x l IH]; simpl; [reflexivity|].
  destruct (h x); simpl; [destruct (f x)|]; congruence.
Qed.

Lemma keyedById_spec m :
  keyedById m = true <-> forall k c, In (k, c) m -> k = Cast.id c.
Proof.
  unfold keyedById. rewrite forallb_forall. split.
  - intros H k c Hin. apply String.eqb_eq. exact (H _ Hin).
  - intros H [k c] Hin. apply String.eqb_eq. simpl. auto.
Qed.

Lemma keyedById_filter f m :
  keyedById m = true -> keyedById (filter f m) = true.
Proof.
  rewrite !keyedById_spec. intros H k c Hin.
  apply filter_In in Hin. apply H. tauto.
Qed.

Lemma keyedById_set m v :
  keyedById m = true -> keyedById (JSMap.set m (Cast.id v) v) = true.
Proof.
  rewrite !keyedById_spec. intros H k c Hin.
  apply In_set in Hin as [[= -> ->]|Hin]; auto.
Qed.

Lemma pruneCast_filter s pending : forall m,
  keyedById m = true ->
  Graph.pruneCast s pending m = filter (fun e => negb (doomed s pending e)) m.
Proof.
  induction pending as [|[k x] rest IH]; intros m Hm; simpl.
  - symmetry. apply filter_all.
  - destruct (JSMap.get m k) as [c|] eqn:Hget.
    + assert (k = Cast.id c) as <-.
      { apply get_In in Hget. revert Hget. now apply keyedById_spec. }
      destruct (Graph.recurrence s k <=? 1) eqn:Hlow.
      * rewrite IH by now apply keyedById_filter.
        unfold JSMap.delete. rewrite filter_twice.
        apply filter_ext. intros e. rewrite andb_true_r, negb_orb.
        reflexivity.
      * rewrite IH by assumption.
        apply filter_ext. intros e. now rewrite andb_false_r.
    + rewrite IH by assumption.
      apply filter_ext_in. intros [k' c'] Hin. simpl.
      destruct (String.eqb_spec k k') as [->|_]; [|reflexivity].
      assert (JSMap.has m k' = true) as Hhas.
      { apply has_keys. apply in_map_iff. now exists (k', c'). }
      unfold JSMap.has in Hhas. now rewrite Hget in Hhas.
Qed.

(** The walk of [fetch] over the whole map keeps exactly the cast members
    that two series or more reference. *)
Lemma pruneCast_spec s m :
  keyedById m = true ->
  Graph.pruneCast s m m
  = filter (fun e => negb (Graph.recurrence s (fst e) <=? 1)) m.
Proof.
  intros Hm. rewrite pruneCast_filter by assumption.
  apply filter_ext_in. intros e Hin. f_equal.
  apply eq_iff_eq_true. unfold doomed. rewrite existsb_exists. split.
  - intros [p [_ Hp]]. apply andb_true_iff in Hp as [Heq Hlow].
    apply String.eqb_eq in Heq. now rewrite <- Heq.
  - intros Hlow. exists e. split; [assumption|].
    now rewrite String.eqb_refl.
Qed.

(** Who is left was there before and is on two rosters or more. *)
Lemma pruneCast_values s m c :
  keyedById m = true ->
  In c (JSMap.values (Graph.pruneCast s m m)) ->
  In c (JSMap.values m) /\ 2 <= Graph.recurrence s (Cast.id c).
Proof.
  intros Hk Hin. rewrite pruneCast_spec in Hin by assumption.
  apply in_map_iff in Hin as [[k c'] [Hc Hin]]. simpl in Hc. subst c'.
  apply filter_In in Hin as [Hin Hrec]. simpl in Hrec.
  assert (k = Cast.id c) as <- by (revert Hin; now apply keyedById_spec).
  split.
  - apply in_map_iff. now exists (k, c).
  - apply negb_true_iff, Nat.leb_gt in Hrec. lia.
Qed.

Lemma prune_cast g :
  Graph.cast (Graph.prune g)
  = Graph.pruneCast (Graph.series g) (Graph.cast g) (Graph.cast g).
Proof. reflexivity. Qed.

Lemma prune_series g :
  Graph.series (Graph.prune g)
  = Graph.pruneSeries (Graph.cast (Graph.prune g)) (Graph.series g).
Proof. reflexivity. Qed.

Lemma consistent_spec g :
  consistent g = true <->
  forall s k, In s (JSMap.values (Graph.series g)) -> In k (Serie.cast s) ->
              JSMap.has (Graph.cast g) k = true.
Proof.
  unfold consistent. rewrite forallb_forall. split.
  - intros H s k Hs Hk. specialize (H s Hs).
    rewrite forallb_forall in H. auto.
  - intros H s Hs. apply forallb_forall. eauto.
Qed.

Lemma prune_consistent g : consistent (Graph.prune g) = true.
Proof.
  apply consistent_spec. intros s k Hs Hk.
  rewrite prune_series in Hs. unfold Graph.pruneSeries, JSMap.values in Hs.
  rewrite map_map in Hs. apply in_map_iff in Hs as [e [<- _]].
  simpl in Hk. apply filter_In in Hk. tauto.
Qed.

Lemma prune_size_le g :
  keyedById (Graph.cast g) = true ->
  JSMap.size (Graph.cast (Graph.prune g)) <= JSMap.size (Graph.cast g).
Proof.
  intros H. rewrite prune_cast, pruneCast_spec by assumption.
  apply filter_length_le.
Qed.

(** *** Ingestion keeps the cast map well formed *)

Lemma castOk_merge c : forall m,
  castOk m = true ->
  castOk (fold_left (fun m v => JSMap.set m (Cast.id v) v) c m) = true.
Proof.
  unfold castOk.
  induction c as [|v c IH]; intros m Hm; simpl; [assumption|].
  apply IH. apply andb_true_iff in Hm as [Hu Hk].
  now rewrite uniqueKeys_set, keyedById_set.
Qed.

Lemma castOk_ingest list : forall g,
  castOk (Graph.cast g) = true ->
  castOk (Graph.cast (fold_left Graph.ingest list g)) = true.
Proof.
  induction list as [|l list IH]; intros g Hg; simpl; [assumption|].
  apply IH. simpl. now apply castOk_merge.
Qed.

Lemma prune_pruned g :
  castOk (Graph.cast g) = true -> pruned (Graph.prune g) = true.
Proof.
  unfold castOk, pruned. intros H. apply andb_true_iff in H as [Hu Hk].
  rewrite prune_consistent, andb_true_r.
  rewrite prune_cast, pruneCast_spec by assumption.
  now rewrite uniqueKeys_filter, keyedById_filter.
Qed.

Lemma fetch_pruned id list : pruned (Graph.fetch (Graph.new id) list) = true.
Proof.
  unfold Graph.fetch. apply prune_pruned. now apply castOk_ingest.
Qed.

(** ** Classification: what [processCast] and [processSeries] push *)

Lemma emit_nil g : emit g [] [] = g.
Proof. destruct g. unfold emit. simpl. now rewrite !app_nil_r. Qed.

Lemma emit_emit g n1 e1 n2 e2 :
  emit (emit g n1 e1) n2 e2 = emit g (n1 ++ n2) (e1 ++ e2).
Proof. unfold emit. simpl. now rewrite !app_assoc. Qed.

Lemma push_node_emit g n : Graph.push_node g n = emit g [n] [].
Proof. unfold Graph.push_node, emit. now rewrite app_nil_r. Qed.

Lemma push_edge_emit g e : Graph.push_edge g e = emit g [] [e].
Proof. unfold Graph.push_edge, emit. now rewrite app_nil_r. Qed.

Lemma push_nodes_emit (A : Type) (f : A -> Node.t) l : forall g,
  fold_left (fun g x => Graph.push_node g (f x)) l g = emit g (map f l) [].
Proof.
  induction l as [|x l IH]; intros g; simpl.
  - now rewrite emit_nil.
  - now rewrite IH, push_node_emit, emit_emit.
Qed.

Lemma push_edges_emit (A : Type) (f : A -> Edge.t) l : forall g,
  fold_left (fun g x => Graph.push_edge g (f x)) l g = emit g [] (map f l).
Proof.
  induction l as [|x l IH]; intros g; simpl.
  - now rewrite emit_nil.
  - now rewrite IH, push_edge_emit, emit_emit.
Qed.

Lemma processCast_emit g :
  Graph.processCast g
  = emit g (map Graph.castNode (JSMap.values (Graph.cast g))) [].
Proof. apply push_nodes_emit. Qed.

Lemma processSeriesMutipleEdges_emit g s :
  Graph.processSeriesMutipleEdges g s
  = emit g [hubNode s] (map (hubEdge s) (Serie.cast s)).
Proof.
  unfold Graph.processSeriesMutipleEdges.
  rewrite (push_edges_emit (hubEdge s)), push_node_emit, emit_emit.
  now rewrite app_nil_r.
Qed.

Lemma processSerie_emission g s :
  Graph.processSerie g s
  = option_map (pushed g) (serieEmission (Graph.cast g) s).
Proof.
  unfold Graph.processSerie, serieEmission.
  destruct (Serie.cast s) as [|a [|b [|c l]]] eqn:E; simpl.
  - unfold pushed. simpl. now rewrite emit_nil.
  - rewrite processSeriesMutipleEdges_emit, E. reflexivity.
  - unfold Graph.processSeriesSingleEdge, Graph.castAt. rewrite E. simpl.
    destruct (JSMap.get (Graph.cast g) a) as [ca|]; [|reflexivity].
    destruct (JSMap.get (Graph.cast g) b) as [cb|]; [|reflexivity].
    simpl. now rewrite push_edge_emit.
  - rewrite processSeriesMutipleEdges_emit, E. reflexivity.
Qed.

Lemma forEachSerie_emission l : forall g,
  Graph.forEachSerie l g
  = option_map (pushed g) (seriesEmission (Graph.cast g) l).
Proof.
  induction l as [|s l IH]; intros g; simpl.
  - unfold pushed. simpl. now rewrite emit_nil.
  - rewrite processSerie_emission.
    destruct (serieEmission (Graph.cast g) s) as [[n1 e1]|]; simpl;
      [|reflexivity].
    rewrite IH. simpl.
    destruct (seriesEmission (Graph.cast g) l) as [[n2 e2]|]; simpl;
      [|reflexivity].
    unfold pushed. simpl. now rewrite emit_emit.
Qed.

(** [classify] pushes the cast nodes and then what the series emit; what it
    pushes depends on the two maps only. *)
Lemma classify_emission g :
  Graph.classify g
  = option_map
      (fun p =>
         emit g (map Graph.castNode (JSMap.values (Graph.cast g)) ++ fst p)
           (snd p))
      (seriesEmission (Graph.cast g) (JSMap.values (Graph.series g))).
Proof.
  unfold Graph.classify, Graph.processSeries.
  rewrite forEachSerie_emission, processCast_emit. simpl.
  destruct (seriesEmission _ _) as [[ns es]|]; simpl; [|reflexivity].
  unfold pushed. simpl. now rewrite emit_emit.
Qed.

(** In a state where the cast members are filed under their ids and the
    roster holds keys of the map only, no lookup fails. *)
Lemma get_keyed c k :
  keyedById c = true -> JSMap.has c k = true ->
  exists v, JSMap.get c k = Some v /\ Cast.id v = k.
Proof.
  intros Hk Hh. apply has_get in Hh as [v Hv]. exists v. split; [assumption|].
  symmetry. apply get_In in Hv. revert Hv. now apply keyedById_spec.
Qed.

Lemma serieEmission_pruned c s :
  keyedById c = true ->
  forallb (JSMap.has c) (Serie.cast s) = true ->
  serieEmission c s = Some (serieNodes s, serieEdges s).
Proof.
  intros Hk Hs. unfold serieEmission, serieNodes, serieEdges.
  destruct (Serie.cast s) as [|a [|b [|x l]]]; try reflexivity.
  simpl in Hs. rewrite andb_true_r in Hs. apply andb_true_iff in Hs as [Ha Hb].
  destruct (@get_keyed c a Hk Ha) as [ca [-> <-]].
  destruct (@get_keyed c b Hk Hb) as [cb [-> <-]].
  reflexivity.
Qed.

Lemma seriesEmission_pruned c l :
  keyedById c = true ->
  forallb (fun s => forallb (JSMap.has c) (Serie.cast s)) l = true ->
  seriesEmission c l = Some (flat_map serieNodes l, flat_map serieEdges l).
Proof.
  intros Hk. induction l as [|s l IH]; simpl; [reflexivity|].
  intros H. apply andb_true_iff in H as [Hs Hl].
  now rewrite serieEmission_pruned, IH.
Qed.

Lemma pruned_parts g :
  pruned g = true ->
  uniqueKeys (Graph.cast g) = true /\ keyedById (Graph.cast g) = true
  /\ consistent g = true.
Proof.
  unfold pruned. rewrite !andb_true_iff. tauto.
Qed.

Lemma classify_pruned g :
  pruned g = true ->
  Graph.classify g
  = Some (emit g
            (map Graph.castNode (JSMap.values (Graph.cast g))
               ++ flat_map serieNodes (JSMap.values (Graph.series g)))
            (flat_map serieEdges (JSMap.values (Graph.series g)))).
Proof.
  intros H. apply pruned_parts in H as (_ & Hk & Hc).
  rewrite classify_emission, seriesEmission_pruned by assumption.
  reflexivity.
Qed.

Lemma fetch_nodes_edges list : forall g,
  Graph.nodes (Graph.fetch g list) = Graph.nodes g
  /\ Graph.edges (Graph.fetch g list) = Graph.edges g.
Proof.
  unfold Graph.fetch. simpl.
  induction list as [|l list IH]; intros g; simpl; [tauto|].
  destruct (IH (Graph.ingest g l)) as [-> ->]. simpl. tauto.
Qed.

(** ** The scenarios of the specification, run *)

Example scenarioA_fetch :
  Graph.fetch (Graph.new "L") scenarioA
  = {| Graph.cast := [("X", person "X")];
       Graph.series :=
         [("1", {| Serie.id := "1"; Serie.name := "Show1";
                   Serie.cast := ["X"] |});
          ("2", {| Serie.id := "2"; Serie.name := "Show2";
                   Serie.cast := ["X"] |})];
       Graph.edges := []; Graph.nodes := []; Graph.id := "L" |}.
Proof. reflexivity. Qed.

Example scenarioBC_build :
  option_map (fun r => (nodeIds r, Graph.edges r)) (Graph.build "L" scenarioBC)
  = Some (["A"; "B"; "C"; "2"; "3"],
          [directEdge show1 "A" "B";
           hubEdge show2 "A"; hubEdge show2 "B"; hubEdge show2 "C";
           {| Edge.from := "3"; Edge.to := "C";
              Edge.label := None; Edge.length := None |};
           {| Edge.from := "3"; Edge.to := "A";
              Edge.label := None; Edge.length := None |};
           {| Edge.from := "3"; Edge.to := "B";
              Edge.label := None; Edge.length := None |}]).
Proof. reflexivity. Qed.

Example scenarioD_build :
  option_map (fun r => (Graph.nodes r, Graph.edges r))
    (Graph.build "L" scenarioD)
  = Some ([], []).
Proof. reflexivity. Qed.

(** Without the pruning of [fetch] a lookup of [processSeriesSingleEdge] can
    miss, and [classify] throws. *)
Example classify_unpruned_throws :
  Graph.classify
    {| Graph.cast := []; Graph.series := [("1", show1)];
       Graph.edges := []; Graph.nodes := []; Graph.id := "L" |}
  = None.
Proof. reflexivity. Qed.

(** ** Entries by number of surviving cast members *)

(** C1, as the code has it: a serie whose pruned roster is empty is skipped,
    [processSerie] leaves the graph as it is; a serie with a single survivor
    is not skipped, it gets its hub node and one unlabeled edge from the hub
    to the survivor. *)
Theorem processSerie_empty_roster_skipped (g : Graph.t) (s : Serie.t) :
  (List.length (Serie.cast s) = 0 -> Graph.processSerie g s = Some g)
  /\ (forall a, Serie.cast s = [a] ->
      exists r, Graph.processSerie g s = Some r
        /\ Graph.nodes r
           = Graph.nodes g
               ++ [{| Node.id := Serie.id s; Node.label := Serie.name s;
                      Node.shape := "text"; Node.image := None |}]
        /\ Graph.edges r
           = Graph.edges g
               ++ [{| Edge.from := Serie.id s; Edge.to := a;
                      Edge.label := None; Edge.length := None |}]).
Proof.
  split.
  - intros H. apply length_zero_iff_nil in H.
    unfold Graph.processSerie. now rewrite H.
  - intros a H. rewrite processSerie_emission. unfold serieEmission.
    rewrite H. simpl. eexists. split; [reflexivity|]. split; reflexivity.
Qed.

Lemma processSerie_empty_roster_skipped_witness :
  let g := Graph.processCast (Graph.fetch (Graph.new "L") scenarioD) in
  let s := {| Serie.id := "1"; Serie.name := "Show1"; Serie.cast := [] |} in
  let t := {| Serie.id := "1"; Serie.name := "Show1"; Serie.cast := ["X"] |} in
  (List.length (Serie.cast s) = 0 /\ Graph.processSerie g s = Some g)
  /\ exists r,
      Graph.processSerie g t = Some r
      /\ Graph.nodes r = Graph.nodes g ++ [hubNode t]
      /\ Graph.edges r = Graph.edges g ++ [hubEdge t "X"].
Proof.
  intros g s t. split.
  - split; [reflexivity|].
    apply (proj1 (processSerie_empty_roster_skipped g s)). reflexivity.
  - apply (proj2 (processSerie_empty_roster_skipped g t) "X"). reflexivity.
Defined.

(** C1 as stated fails on scenario A of the specification: show 1 is left
    with X alone, and [processSerie] pushes a hub node and an edge for it. *)
Lemma lone_survivor_not_skipped :
  let g := Graph.processCast (Graph.fetch (Graph.new "L") scenarioA) in
  let s := {| Serie.id := "1"; Serie.name := "Show1"; Serie.cast := ["X"] |} in
  In s (JSMap.values (Graph.series g))
  /\ List.length (Serie.cast s) <= 1
  /\ Graph.processSerie g s
     = Some (emit g [hubNode s] [hubEdge s "X"])
  /\ Graph.processSerie g s <> Some g.
Proof.
  intros g s. split; [left; reflexivity|]. split; [simpl; lia|].
  split; [reflexivity|]. vm_compute. discriminate.
Qed.

(** C3: in a pruned state, a serie with exactly two surviving cast members
    gets one edge, from the first to the second, labelled with the name of
    the serie, and no node. *)
Theorem two_survivors_one_labelled_edge (g : Graph.t) (s : Serie.t) :
  pruned g = true ->
  In s (JSMap.values (Graph.series g)) ->
  List.length (Serie.cast s) = 2 ->
  exists a b r,
    Serie.cast s = [a; b]
    /\ Graph.processSerie g s = Some r
    /\ Graph.nodes r = Graph.nodes g
    /\ Graph.edges r
       = Graph.edges g
           ++ [{| Edge.from := a; Edge.to := b;
                  Edge.label := Some (Serie.name s); Edge.length := None |}].
Proof.
  intros Hp Hs Hlen. apply pruned_parts in Hp as (_ & Hk & Hc).
  destruct (Serie.cast s) as [|a [|b [|x l]]] eqn:E; try discriminate.
  exists a, b. rewrite processSerie_emission, serieEmission_pruned.
  - unfold serieNodes, serieEdges. rewrite E. simpl.
    eexists. split; [reflexivity|]. split; [reflexivity|].
    split; [apply app_nil_r | reflexivity].
  - assumption.
  - unfold consistent in Hc. rewrite forallb_forall in Hc. auto.
Qed.

Lemma two_survivors_one_labelled_edge_witness :
  let g := Graph.processCast (Graph.fetch (Graph.new "L") scenarioBC) in
  exists a b r,
    Serie.cast show1 = [a; b]
    /\ Graph.processSerie g show1 = Some r
    /\ Graph.nodes r = Graph.nodes g
    /\ Graph.edges r
       = Graph.edges g
           ++ [{| Edge.from := a; Edge.to := b;
                  Edge.label := Some (Serie.name show1);
                  Edge.length := None |}].
Proof.
  intros g. apply (@two_survivors_one_labelled_edge g show1).
  - reflexivity.
  - left. reflexivity.
  - reflexivity.
Defined.

(** C4: a serie with three surviving cast members or more gets one hub node
    (its name as label, shape [text], no image) and one unlabeled edge from
    the hub to each member of its roster, as many edges as the roster is
    long. *)
Theorem many_survivors_hub_and_spokes (g : Graph.t) (s : Serie.t) :
  3 <= List.length (Serie.cast s) ->
  exists r,
    Graph.processSerie g s = Some r
    /\ Graph.nodes r
       = Graph.nodes g
           ++ [{| Node.id := Serie.id s; Node.label := Serie.name s;
                  Node.shape := "text"; Node.image := None |}]
    /\ Graph.edges r
       = Graph.edges g
           ++ map (fun id => {| Edge.from := Serie.id s; Edge.to := id;
                                Edge.label := None; Edge.length := None |})
                (Serie.cast s)
    /\ List.length (Graph.edges r)
       = List.length (Graph.edges g) + List.length (Serie.cast s).
Proof.
  intros Hlen. rewrite processSerie_emission. unfold serieEmission.
  destruct (Serie.cast s) as [|a [|b [|x l]]] eqn:E; simpl in Hlen; try lia.
  simpl. eexists. split; [reflexivity|]. simpl.
  split; [reflexivity|]. split; [reflexivity|].
  rewrite length_app. simpl. now rewrite length_map.
Qed.

Lemma many_survivors_hub_and_spokes_witness :
  let g := Graph.processCast (Graph.fetch (Graph.new "L") scenarioBC) in
  3 <= List.length (Serie.cast show2)
  /\ exists r,
      Graph.processSerie g show2 = Some r
      /\ Graph.nodes r
         = Graph.nodes g
             ++ [{| Node.id := "2"; Node.label := "Show2";
                    Node.shape := "text"; Node.image := None |}]
      /\ Graph.edges r
         = Graph.edges g
             ++ map (fun id => {| Edge.from := "2"; Edge.to := id;
                                  Edge.label := None; Edge.length := None |})
                  ["A"; "B"; "C"]
      /\ List.length (Graph.edges r) = List.length (Graph.edges g) + 3.
Proof.
  intros g. split; [simpl; lia|].
  apply (@many_survivors_hub_and_spokes g show2). simpl. lia.
Defined.

(** ** Pruning keeps recurring cast members and consistent rosters *)

(** C2: in a cast map filed by id, whoever is left after [prune] is on the
    roster of two series or more, counted on the rosters as they were before
    [prune] touched them ([Graph.series g], not those of [Graph.prune g]). *)
Theorem prune_keeps_recurring (g : Graph.t) (c : Cast.t) :
  keyedById (Graph.cast g) = true ->
  In c (JSMap.values (Graph.cast (Graph.prune g))) ->
  2 <= Graph.recurrence (Graph.series g) (Cast.id c).
Proof.
  intros Hk Hin. rewrite prune_cast in Hin.
  apply pruneCast_values in Hin; [|assumption].
  destruct Hin as [_ Hrec]. exact Hrec.
Qed.

Lemma prune_keeps_recurring_witness :
  let g := fold_left Graph.ingest scenarioA (Graph.new "L") in
  In (person "X") (JSMap.values (Graph.cast (Graph.prune g)))
  /\ 2 <= Graph.recurrence (Graph.series g) "X".
Proof.
  intros g. split; [left; reflexivity|].
  apply (@prune_keeps_recurring g (person "X")).
  - reflexivity.
  - left. reflexivity.
Defined.

(** The same over [fetch] as the script calls it, where ingestion provides
    the hypothesis. *)
Lemma fetch_keeps_recurring id list c :
  In c (JSMap.values (Graph.cast (Graph.fetch (Graph.new id) list))) ->
  2 <= Graph.recurrence
         (Graph.series (fold_left Graph.ingest list (Graph.new id)))
         (Cast.id c).
Proof.
  unfold Graph.fetch. intros Hin.
  pose proof (@castOk_ingest list (Graph.new id) eq_refl) as Hok.
  apply andb_true_iff in Hok as [_ Hk].
  rewrite prune_cast in Hin. now apply pruneCast_values in Hin.
Qed.

(** C6: after [prune], every id on every roster is a key of the cast map. *)
Theorem prune_rosters_within_cast (g : Graph.t) (s : Serie.t) (k : string) :
  In s (JSMap.values (Graph.series (Graph.prune g))) ->
  In k (Serie.cast s) ->
  In k (JSMap.keys (Graph.cast (Graph.prune g))).
Proof.
  intros Hs Hk. apply has_keys.
  pose proof (prune_consistent g) as H. rewrite consistent_spec in H. eauto.
Qed.

Lemma prune_rosters_within_cast_witness :
  let g := fold_left Graph.ingest scenarioBC (Graph.new "L") in
  In "C" (JSMap.keys (Graph.cast (Graph.prune g))).
Proof.
  intros g. apply (@prune_rosters_within_cast g show2 "C").
  - right. left. reflexivity.
  - right. right. left. reflexivity.
Defined.

(** C10: when every id on every roster is a key of the cast map, the two
    lookups of [processSeriesSingleEdge] on a serie of two find a cast member
    each, and the call returns. *)
Theorem processSeriesSingleEdge_total (g : Graph.t) (s : Serie.t) :
  consistent g = true ->
  In s (JSMap.values (Graph.series g)) ->
  List.length (Serie.cast s) = 2 ->
  exists c0 c1,
    Graph.castAt g s 0 = Some c0
    /\ Graph.castAt g s 1 = Some c1
    /\ Graph.processSeriesSingleEdge g s
       = Some (Graph.push_edge g
                 {| Edge.from := Cast.id c0; Edge.to := Cast.id c1;
                    Edge.label := Some (Serie.name s);
                    Edge.length := None |}).
Proof.
  intros Hc Hs Hlen. rewrite consistent_spec in Hc.
  destruct (Serie.cast s) as [|a [|b [|x l]]] eqn:E; try discriminate.
  destruct (@has_get _ (Graph.cast g) a) as [c0 H0].
  { apply (Hc s); [assumption | rewrite E; now left]. }
  destruct (@has_get _ (Graph.cast g) b) as [c1 H1].
  { apply (Hc s); [assumption | rewrite E; right; now left]. }
  exists c0, c1. unfold Graph.processSeriesSingleEdge, Graph.castAt.
  rewrite E. simpl. rewrite H0, H1. auto.
Qed.

Lemma processSeriesSingleEdge_total_witness :
  let g := Graph.processCast (Graph.fetch (Graph.new "L") scenarioBC) in
  exists c0 c1,
    Graph.castAt g show1 0 = Some c0
    /\ Graph.castAt g show1 1 = Some c1
    /\ Graph.processSeriesSingleEdge g show1
       = Some (Graph.push_edge g
                 {| Edge.from := Cast.id c0; Edge.to := Cast.id c1;
                    Edge.label := Some "Show1"; Edge.length := None |}).
Proof.
  intros g. apply (@processSeriesSingleEdge_total g show1).
  - reflexivity.
  - left. reflexivity.
  - reflexivity.
Defined.

(** ** The graph of a run *)

Lemma keyed_node c k :
  keyedById c = true -> JSMap.has c k = true ->
  In k (map Node.id (map Graph.castNode (JSMap.values c))).
Proof.
  intros Hk Hh. destruct (@get_keyed c k Hk Hh) as [v [Hv <-]].
  apply get_In in Hv. rewrite map_map. apply in_map_iff. exists v.
  split; [reflexivity|]. apply in_map_iff. now exists (Cast.id v, v).
Qed.

(** Every edge a serie contributes in a pruned state runs between a cast
    node and a cast node, or between its own hub node and a cast node. *)
Lemma serieEdges_closed c s e :
  keyedById c = true ->
  forallb (JSMap.has c) (Serie.cast s) = true ->
  In e (serieEdges s) ->
  let ids := map Node.id (map Graph.castNode (JSMap.values c) ++ serieNodes s) in
  In (Edge.from e) ids /\ In (Edge.to e) ids.
Proof.
  intros Hk Hs He ids. subst ids. rewrite forallb_forall in Hs.
  rewrite map_app. unfold serieEdges, serieNodes in *.
  assert (forall k, In k (Serie.cast s) ->
            In k (map Node.id (map Graph.castNode (JSMap.values c)))) as Hin.
  { intros k Hin. apply keyed_node; auto. }
  destruct (Serie.cast s) as [|a [|b [|x l]]].
  - destruct He.
  - destruct He as [<-|[]]. simpl. split; apply in_or_app.
    + right. now left.
    + left. apply Hin. now left.
  - destruct He as [<-|[]]. simpl. split; apply in_or_app; left; apply Hin.
    + now left.
    + right. now left.
  - apply in_map_iff in He as [k [<- Hk']]. simpl.
    split; apply in_or_app.
    + right. now left.
    + left. now apply Hin.
Qed.

Lemma classify_edges_closed g e :
  pruned g = true ->
  In e (flat_map serieEdges (JSMap.values (Graph.series g))) ->
  let ids :=
    map Node.id
      (map Graph.castNode (JSMap.values (Graph.cast g))
         ++ flat_map serieNodes (JSMap.values (Graph.series g))) in
  In (Edge.from e) ids /\ In (Edge.to e) ids.
Proof.
  intros Hp He ids. subst ids. apply pruned_parts in Hp as (_ & Hk & Hc).
  apply in_flat_map in He as [s [Hs He]].
  unfold consistent in Hc. rewrite forallb_forall in Hc.
  destruct (@serieEdges_closed (Graph.cast g) s e Hk (Hc s Hs) He) as [Hf Ht].
  rewrite map_app in *.
  assert (forall k, In k (map Node.id (serieNodes s)) ->
            In k (map Node.id
                    (flat_map serieNodes (JSMap.values (Graph.series g)))))
    as Hsub.
  { intros k Hin. apply in_map_iff in Hin as [n [<- Hn]].
    apply in_map. apply in_flat_map. eauto. }
  split; apply in_or_app.
  - apply in_app_or in Hf as [Hf|Hf]; auto.
  - apply in_app_or in Ht as [Ht|Ht]; auto.
Qed.

(** C5: the script always produces a graph, and in it both ends of every
    edge are ids of nodes of the graph. *)
Theorem build_edges_join_nodes (id : string) (list : list Item.t) :
  exists r,
    Graph.build id list = Some r
    /\ Forall (fun e => In (Edge.from e) (nodeIds r)
                        /\ In (Edge.to e) (nodeIds r))
         (Graph.edges r).
Proof.
  unfold Graph.build.
  pose proof (fetch_pruned id list) as Hp.
  destruct (fetch_nodes_edges list (Graph.new id)) as [Hn He].
  rewrite classify_pruned by assumption.
  eexists. split; [reflexivity|].
  unfold nodeIds, emit. cbn [Graph.nodes Graph.edges].
  rewrite Hn, He. cbn [Graph.new Graph.nodes Graph.edges app].
  apply Forall_forall. intros e Hin.
  now apply classify_edges_closed.
Qed.

Lemma flat_map_nil (A B : Type) (f : A -> list B) (l : list A) :
  (forall x, In x l -> f x = []) -> flat_map f l = [].
Proof.
  induction l as [|x l IH]; intros H; simpl; [reflexivity|].
  rewrite (H x) by now left. apply IH. intros y Hy. apply H. now right.
Qed.

(** C7, as the code has it: on a pruned state with nothing pushed yet
    [classify] returns a graph; when no serie has a surviving cast member the
    graph has no edge and one node per cast member, no more. *)
Theorem classify_total_empty_rosters (g : Graph.t) :
  pruned g = true ->
  Graph.nodes g = [] ->
  Graph.edges g = [] ->
  exists r,
    Graph.classify g = Some r
    /\ ((forall s, In s (JSMap.values (Graph.series g)) ->
                  List.length (Serie.cast s) < 1) ->
        Graph.edges r = []
        /\ List.length (Graph.nodes r) <= JSMap.size (Graph.cast g)).
Proof.
  intros Hp Hn He. rewrite classify_pruned by assumption.
  eexists. split; [reflexivity|]. intros Hall.
  assert (forall s, In s (JSMap.values (Graph.series g)) -> Serie.cast s = [])
    as Hnil.
  { intros s Hs. specialize (Hall s Hs).
    destruct (Serie.cast s); [reflexivity | simpl in Hall; lia]. }
  unfold emit. cbn [Graph.nodes Graph.edges]. rewrite Hn, He.
  rewrite !flat_map_nil.
  - simpl. rewrite app_nil_r, length_map.
    unfold JSMap.values, JSMap.size. now rewrite length_map.
  - intros s Hs. unfold serieNodes. now rewrite (Hnil s Hs).
  - intros s Hs. unfold serieEdges. now rewrite (Hnil s Hs).
Qed.

Lemma classify_total_empty_rosters_witness :
  let g := Graph.fetch (Graph.new "L") scenarioD in
  exists r,
    Graph.classify g = Some r
    /\ Graph.edges r = []
    /\ List.length (Graph.nodes r) <= JSMap.size (Graph.cast g).
Proof.
  intros g.
  destruct (@classify_total_empty_rosters g) as [r [Hr Hempty]];
    try reflexivity.
  exists r. split; [exact Hr|]. apply Hempty.
  intros s [<-|[<-|[]]]; simpl; lia.
Defined.

(** C7 as stated fails on scenario A: no serie keeps two cast members, yet
    the graph has two edges and three nodes for two cast members in all. *)
Lemma lone_survivors_graph_not_empty :
  let g := Graph.fetch (Graph.new "L") scenarioA in
  pruned g = true
  /\ forallb (fun s => List.length (Serie.cast s) <? 2)
       (JSMap.values (Graph.series g)) = true
  /\ JSMap.size (Graph.cast (fold_left Graph.ingest scenarioA (Graph.new "L")))
     = 2
  /\ exists r,
      Graph.build "L" scenarioA = Some r
      /\ Graph.edges r
         = [{| Edge.from := "1"; Edge.to := "X";
               Edge.label := None; Edge.length := None |};
            {| Edge.from := "2"; Edge.to := "X";
               Edge.label := None; Edge.length := None |}]
      /\ Graph.edges r <> []
      /\ 2 < List.length (Graph.nodes r).
Proof.
  intros g. repeat split; try reflexivity.
  eexists. split; [reflexivity|]. split; [reflexivity|].
  split; [discriminate | simpl; lia].
Qed.

(** *** Cast nodes *)

Lemma keyed_ids m :
  keyedById m = true -> map Cast.id (JSMap.values m) = JSMap.keys m.
Proof.
  rewrite keyedById_spec. unfold JSMap.values, JSMap.keys.
  induction m as [|[k c] m IH]; intros H; simpl; [reflexivity|].
  rewrite IH.
  - f_equal. symmetry. apply H. now left.
  - intros k' c' Hin. apply H. now right.
Qed.

Lemma castNodeOf_castNode i v :
  castNodeOf i (Graph.castNode v) = String.eqb (Cast.id v) i.
Proof. unfold castNodeOf, isCircular. simpl. apply andb_true_r. Qed.

Lemma castNodeOf_absent vs i :
  ~ In i (map Cast.id vs) ->
  filter (castNodeOf i) (map Graph.castNode vs) = [].
Proof.
  induction vs as [|v vs IH]; intros H; cbn [map filter]; [reflexivity|].
  rewrite castNodeOf_castNode.
  destruct (String.eqb_spec (Cast.id v) i) as [E|_].
  - exfalso. apply H. now left.
  - simpl. apply IH. intros Hin. apply H. now right.
Qed.

Lemma castNodeOf_present vs c :
  NoDup (map Cast.id vs) -> In c vs ->
  filter (castNodeOf (Cast.id c)) (map Graph.castNode vs) = [Graph.castNode c].
Proof.
  induction vs as [|v vs IH]; intros Hnd Hin; [destruct Hin|].
  simpl in Hnd. inversion Hnd as [|? ? Hv Hvs]; subst.
  cbn [map filter]. rewrite castNodeOf_castNode.
  destruct Hin as [->|Hin].
  - rewrite String.eqb_refl. simpl. now rewrite castNodeOf_absent.
  - destruct (String.eqb_spec (Cast.id v) (Cast.id c)) as [E|_]; simpl; auto.
    exfalso. apply Hv. rewrite E. now apply in_map.
Qed.

Lemma castNodeOf_hubs i l : filter (castNodeOf i) (flat_map serieNodes l) = [].
Proof.
  induction l as [|s l IH]; simpl; [reflexivity|].
  rewrite filter_app, IH, app_nil_r. unfold serieNodes.
  destruct (Serie.cast s) as [|a [|b [|x r]]]; simpl; try reflexivity;
    unfold castNodeOf; simpl; now rewrite andb_false_r.
Qed.

(** C8: in the graph [classify] builds from a pruned state, each cast member
    of the map has one circular-image node with its id and no more, and that
    node carries its name as label and its image. *)
Theorem classify_one_node_per_cast (g : Graph.t) (c : Cast.t) :
  pruned g = true ->
  Graph.nodes g = [] ->
  In c (JSMap.values (Graph.cast g)) ->
  exists r,
    Graph.classify g = Some r
    /\ filter
         (fun n => String.eqb (Node.id n) (Cast.id c)
                   && String.eqb (Node.shape n) "circularImage")
         (Graph.nodes r)
       = [{| Node.id := Cast.id c; Node.label := Cast.name c;
             Node.shape := "circularImage";
             Node.image := Some (Cast.url c) |}].
Proof.
  intros Hp Hn Hin. rewrite classify_pruned by assumption.
  apply pruned_parts in Hp as (Hu & Hk & _).
  eexists. split; [reflexivity|].
  unfold emit. cbn [Graph.nodes]. rewrite Hn. cbn [app].
  change (fun n => String.eqb (Node.id n) (Cast.id c)
                   && String.eqb (Node.shape n) "circularImage")
    with (castNodeOf (Cast.id c)).
  rewrite filter_app, castNodeOf_hubs, app_nil_r.
  apply castNodeOf_present; [|assumption].
  rewrite keyed_ids by assumption. now apply uniqueKeys_NoDup.
Qed.

Lemma classify_one_node_per_cast_witness :
  let g := Graph.fetch (Graph.new "L") scenarioBC in
  exists r,
    Graph.classify g = Some r
    /\ filter
         (fun n => String.eqb (Node.id n) "B"
                   && String.eqb (Node.shape n) "circularImage")
         (Graph.nodes r)
       = [{| Node.id := "B"; Node.label := "name-B";
             Node.shape := "circularImage"; Node.image := Some "img/B" |}].
Proof.
  intros g. apply (@classify_one_node_per_cast g (person "B")).
  - reflexivity.
  - reflexivity.
  - right. left. reflexivity.
Defined.

(** ** Running [classify] again *)

(** C9: two runs of [classify] on states that hold the same cast map and the
    same series map either both throw or both return, and then they push the
    same nodes and the same edges, in the same order. *)
Theorem classify_same_maps_same_graph (g1 g2 : Graph.t) :
  Graph.cast g1 = Graph.cast g2 ->
  Graph.series g1 = Graph.series g2 ->
  (Graph.classify g1 = None /\ Graph.classify g2 = None)
  \/ exists ns es r1 r2,
       Graph.classify g1 = Some r1 /\ Graph.classify g2 = Some r2
       /\ Graph.nodes r1 = Graph.nodes g1 ++ ns
       /\ Graph.nodes r2 = Graph.nodes g2 ++ ns
       /\ Graph.edges r1 = Graph.edges g1 ++ es
       /\ Graph.edges r2 = Graph.edges g2 ++ es.
Proof.
  intros Hc Hs. rewrite !classify_emission, <- Hc, <- Hs.
  destruct (seriesEmission _ _) as [[ns es]|]; simpl; [right | now left].
  exists (map Graph.castNode (JSMap.values (Graph.cast g1)) ++ ns), es.
  do 2 eexists. repeat split.
Qed.

Lemma classify_same_maps_same_graph_witness :
  let g1 := Graph.fetch (Graph.new "L") scenarioBC in
  let g2 := Graph.fetch (Graph.new "M") scenarioBC in
  (Graph.classify g1 = None /\ Graph.classify g2 = None)
  \/ exists ns es r1 r2,
       Graph.classify g1 = Some r1 /\ Graph.classify g2 = Some r2
       /\ Graph.nodes r1 = Graph.nodes g1 ++ ns
       /\ Graph.nodes r2 = Graph.nodes g2 ++ ns
       /\ Graph.edges r1 = Graph.edges g1 ++ es
       /\ Graph.edges r2 = Graph.edges g2 ++ es.
Proof.
  intros g1 g2. apply (@classify_same_maps_same_graph g1 g2); reflexivity.
Defined.

(** On one and the same object a second run reads the same maps, so it
    pushes the same nodes and edges once more, after those of the first. *)
Lemma classify_again_pushes_again g r :
  Graph.classify g = Some r ->
  exists ns es,
    r = emit g ns es /\ Graph.classify r = Some (emit r ns es).
Proof.
  rewrite classify_emission.
  destruct (seriesEmission _ _) as [[ns es]|] eqn:E; simpl; [|discriminate].
  intros [= <-]. do 2 eexists. split; [reflexivity|].
  rewrite classify_emission. cbn [emit Graph.cast Graph.series].
  rewrite E. reflexivity.
Qed.

(** * Further properties *)

(** ** [getList] *)

Section GetList.
Variable A : Type.
Variable fetchCache : nat -> Url.t -> Page.t A.

(** X1: the argument [page] has no effect on what [getList] requests or
    returns. *)
Theorem getList_ignores_page (fuel sent : nat) (id : string)
    (page page' : nat) (data : list A) :
  getList fetchCache fuel sent id page data
  = getList fetchCache fuel sent id page' data.
Proof.
  revert sent page page' data.
  induction fuel as [|fuel IH]; intros sent page page' data; simpl;
    [reflexivity|].
  destruct (Page.more (fetchCache sent (listUrl id))); [|reflexivity].
  apply IH.
Qed.

(** X2: when the service says [more] to [n] requests and then no more,
    [getList] returns [data] followed by the [n + 1] answers in order, all
    of them answers to the same URL. *)
Theorem getList_concats_pages (n : nat) : forall fuel sent id page data,
  (forall k, sent <= k < sent + n ->
             Page.more (fetchCache k (listUrl id)) = true) ->
  Page.more (fetchCache (sent + n) (listUrl id)) = false ->
  n < fuel ->
  getList fetchCache fuel sent id page data
  = Some (data ++ pagesRead fetchCache id sent (S n)).
Proof.
  unfold pagesRead.
  induction n as [|n IH]; intros fuel sent id page data Hmore Hlast Hfuel;
    (destruct fuel as [|fuel]; [lia|]); simpl.
  - rewrite Nat.add_0_r in Hlast. rewrite Hlast. now rewrite app_nil_r.
  - rewrite Hmore by lia.
    rewrite IH; try lia.
    + simpl. now rewrite <- app_assoc.
    + intros k Hk. apply Hmore. lia.
    + now replace (S sent + n) with (sent + S n) by lia.
Qed.

(** X3: when the service answers the URL of the list the same way every time
    and that answer says [more], no amount of fuel lets [getList] return:
    it asks for the same page again and again. *)
Theorem getList_same_answer_never_returns (id : string) :
  (forall n, fetchCache n (listUrl id) = fetchCache 0 (listUrl id)) ->
  Page.more (fetchCache 0 (listUrl id)) = true ->
  forall fuel sent page data,
    getList fetchCache fuel sent id page data = None.
Proof.
  intros Hsame Hmore fuel.
  induction fuel as [|fuel IH]; intros sent page data; simpl; [reflexivity|].
  rewrite Hsame, Hmore. apply IH.
Qed.
End GetList.

Lemma getList_concats_pages_witness :
  getList byRequestCount 5 0 "1l" 1 [] = Some ["a"; "b"; "a"; "b"; "c"].
Proof.
  apply (@getList_concats_pages string byRequestCount 2 5 0 "1l" 1 []).
  - intros k Hk. unfold byRequestCount.
    destruct k as [|[|k]]; [reflexivity | reflexivity | lia].
  - reflexivity.
  - lia.
Defined.

Lemma getList_same_answer_never_returns_witness :
  getList byPageParam 100 0 "1l" 1 [] = None.
Proof.
  apply (@getList_same_answer_never_returns string byPageParam "1l").
  - intros n. reflexivity.
  - reflexivity.
Defined.

(** ** Ingestion *)

Section JSMapSet.
Variable V : Type.
Implicit Types (m : JSMap.t V) (k : string) (v : V).

Lemma get_set_same m k v : JSMap.get (JSMap.set m k v) k = Some v.
Proof.
  induction m as [|[k' v'] m IH]; simpl.
  - now rewrite String.eqb_refl.
  - destruct (String.eqb_spec k k') as [->|Hne]; simpl.
    + now rewrite String.eqb_refl.
    + apply String.eqb_neq in Hne. now rewrite Hne.
Qed.

Lemma get_set_other m k k' v :
  k <> k' -> JSMap.get (JSMap.set m k v) k' = JSMap.get m k'.
Proof.
  intros Hne. induction m as [|[k0 v0] m IH]; simpl.
  - apply not_eq_sym, String.eqb_neq in Hne. now rewrite Hne.
  - destruct (String.eqb_spec k k0) as [->|_]; simpl.
    + apply not_eq_sym, String.eqb_neq in Hne. now rewrite Hne.
    + now rewrite IH.
Qed.

Lemma has_set m k k' v :
  JSMap.has (JSMap.set m k v) k' = String.eqb k k' || JSMap.has m k'.
Proof.
  unfold JSMap.has. destruct (String.eqb_spec k k') as [->|Hne].
  - now rewrite get_set_same.
  - now rewrite get_set_other.
Qed.

Lemma get_filter_key (p : string -> bool) m k :
  JSMap.get (filter (fun e => p (fst e)) m) k
  = if p k then JSMap.get m k else None.
Proof.
  induction m as [|[k' v'] m IH]; simpl; [now destruct (p k)|].
  destruct (p k') eqn:Hp; simpl.
  - destruct (String.eqb_spec k k') as [->|_]; [now rewrite Hp | exact IH].
  - destruct (String.eqb_spec k k') as [->|_]; [now rewrite IH, Hp | exact IH].
Qed.

Lemma has_filter_key (p : string -> bool) m k :
  JSMap.has (filter (fun e => p (fst e)) m) k = p k && JSMap.has m k.
Proof.
  unfold JSMap.has. rewrite get_filter_key. now destruct (p k).
Qed.
End JSMapSet.

Lemma has_mergeCast c : forall m k,
  JSMap.has (mergeCast c m) k
  = JSMap.has m k || existsb (fun v => String.eqb (Cast.id v) k) c.
Proof.
  unfold mergeCast.
  induction c as [|v c IH]; intros m k; simpl; [now rewrite orb_false_r|].
  rewrite IH, has_set.
  destruct (String.eqb (Cast.id v) k), (JSMap.has m k); reflexivity.
Qed.

Lemma get_mergeCast_other c : forall m k,
  ~ In k (map Cast.id c) -> JSMap.get (mergeCast c m) k = JSMap.get m k.
Proof.
  unfold mergeCast.
  induction c as [|v c IH]; intros m k Hk; simpl; [reflexivity|].
  rewrite IH by (intros H; apply Hk; now right).
  apply get_set_other. intros E. apply Hk. now left.
Qed.

Lemma get_mergeCast_last pre v post m :
  ~ In (Cast.id v) (map Cast.id post) ->
  JSMap.get (mergeCast (pre ++ v :: post) m) (Cast.id v) = Some v.
Proof.
  intros Hpost. unfold mergeCast. rewrite fold_left_app. simpl.
  fold (mergeCast post
          (JSMap.set (fold_left (fun m v => JSMap.set m (Cast.id v) v) pre m)
             (Cast.id v) v)).
  rewrite get_mergeCast_other by assumption. apply get_set_same.
Qed.

Lemma ingest_cast g l :
  Graph.cast (Graph.ingest g l) = mergeCast (Item.cast l) (Graph.cast g).
Proof. reflexivity. Qed.

Lemma ingest_series g l :
  Graph.series (Graph.ingest g l)
  = JSMap.set (Graph.series g) (Item.id l)
      {| Serie.id := Item.id l; Serie.name := Item.name l;
         Serie.cast := map Cast.id (Item.cast l) |}.
Proof. reflexivity. Qed.

Lemma has_fold_ingest (list : list Item.t) : forall (g : Graph.t) k,
  JSMap.has (Graph.cast (fold_left Graph.ingest list g)) k = true
  <-> JSMap.has (Graph.cast g) k = true
      \/ exists l v, In l list /\ In v (Item.cast l) /\ Cast.id v = k.
Proof.
  induction list as [|l list IH]; intros g k; simpl.
  - split; [now left | intros [H|(l & v & [] & _)]; exact H].
  - rewrite IH, ingest_cast, has_mergeCast, orb_true_iff, existsb_exists.
    split.
    + intros [[H|(v & Hv & E)]|(l' & v & Hl & Hv & E)]; auto.
      * right. exists l, v. apply String.eqb_eq in E. auto.
      * right. exists l', v. auto.
    + intros [H|(l' & v & [<-|Hl] & Hv & E)]; auto.
      * left. right. exists v. split; [assumption|]. now apply String.eqb_eq.
      * right. exists l', v. auto.
Qed.

(** X4: when every promise of [fetch] has completed, the keys of the cast map
    are the ids of the cast members scraped, of whatever item: nobody is
    left out and no key comes from elsewhere. *)
Theorem ingested_cast_keys (id : string) (list : list Item.t) (k : string) :
  JSMap.has (Graph.cast (ingested id list)) k = true
  <-> exists l v, In l list /\ In v (Item.cast l) /\ Cast.id v = k.
Proof.
  unfold ingested. rewrite has_fold_ingest. simpl. split.
  - intros [H|H]; [discriminate | exact H].
  - intros H. now right.
Qed.

Lemma ingested_cast_keys_witness :
  JSMap.has (Graph.cast (ingested "L" scenarioBC)) "D" = true.
Proof.
  apply (proj2 (@ingested_cast_keys "L" scenarioBC "D")).
  exists {| Item.id := "2"; Item.name := "Show2";
            Item.cast := [person "A"; person "B"; person "C"; person "D"] |},
         (person "D").
  simpl. tauto.
Defined.

(** X5: last write wins: the record the cast map holds for a cast member is the
    one of its last mention in the last item that mentions it. *)
Theorem ingest_last_write_wins (g : Graph.t) (before after : list Item.t)
    (l : Item.t) (pre post : list Cast.t) (v : Cast.t) :
  Item.cast l = pre ++ v :: post ->
  ~ In (Cast.id v) (map Cast.id post) ->
  (forall l', In l' after -> ~ In (Cast.id v) (map Cast.id (Item.cast l'))) ->
  JSMap.get (Graph.cast (fold_left Graph.ingest (before ++ l :: after) g))
    (Cast.id v)
  = Some v.
Proof.
  intros Hl Hpost Hafter. rewrite fold_left_app. simpl.
  set (g1 := Graph.ingest (fold_left Graph.ingest before g) l).
  assert (JSMap.get (Graph.cast g1) (Cast.id v) = Some v) as H1.
  { subst g1. rewrite ingest_cast, Hl. now apply get_mergeCast_last. }
  clearbody g1. revert g1 H1.
  induction after as [|l' after IH]; intros g1 H1; simpl; [exact H1|].
  apply IH.
  - intros l0 H0. apply Hafter. now right.
  - rewrite ingest_cast, get_mergeCast_other; [exact H1|].
    apply Hafter. now left.
Qed.

Lemma ingest_last_write_wins_witness :
  let v := {| Cast.id := "X"; Cast.name := "new name"; Cast.url := "new" |} in
  let l := {| Item.id := "3"; Item.name := "Show3"; Item.cast := [v] |} in
  JSMap.get (Graph.cast (fold_left Graph.ingest (scenarioA ++ [l])
                           (Graph.new "L"))) "X"
  = Some v.
Proof.
  intros v l.
  apply (@ingest_last_write_wins (Graph.new "L") scenarioA [] l [] [] v).
  - reflexivity.
  - simpl. tauto.
  - simpl. tauto.
Defined.

Lemma series_fold_ingest (list : list Item.t) : forall (g : Graph.t) k s,
  In (k, s) (Graph.series (fold_left Graph.ingest list g)) ->
  In (k, s) (Graph.series g)
  \/ (Serie.id s = k
      /\ exists l, In l list /\ Item.id l = k /\ Serie.name s = Item.name l
                   /\ Serie.cast s = map Cast.id (Item.cast l)).
Proof.
  induction list as [|l list IH]; intros g k s Hin; simpl in Hin; [now left|].
  apply IH in Hin as [Hin|(Hid & l' & Hl' & H)].
  - rewrite ingest_series in Hin. apply In_set in Hin as [[= -> ->]|Hin].
    + right. split; [reflexivity|]. exists l. simpl. auto.
    + now left.
  - right. split; [assumption|]. exists l'. split; [now right | assumption].
Qed.

(** X6: whatever the series map holds when every promise of [fetch] has
    completed was recorded for some item of the list: the serie is filed
    under the id of the item, carries its name, and its roster is the ids of
    the scraped cast in page order. *)
Theorem ingested_series_records (id : string) (list : list Item.t)
    (k : string) (s : Serie.t) :
  In (k, s) (Graph.series (ingested id list)) ->
  Serie.id s = k
  /\ exists l, In l list /\ Item.id l = k /\ Serie.name s = Item.name l
               /\ Serie.cast s = map Cast.id (Item.cast l).
Proof.
  intros Hin. unfold ingested in Hin.
  apply series_fold_ingest in Hin as [Hin|H]; [|exact H].
  simpl in Hin. destruct Hin.
Qed.

Lemma ingested_series_records_witness :
  Serie.id show1 = "1"
  /\ exists l, In l scenarioBC /\ Item.id l = "1"
               /\ Serie.name show1 = Item.name l
               /\ Serie.cast show1 = map Cast.id (Item.cast l).
Proof.
  apply (@ingested_series_records "L" scenarioBC "1" show1).
  left. reflexivity.
Defined.

Lemma consistent_ingest g l :
  consistent g = true -> consistent (Graph.ingest g l) = true.
Proof.
  rewrite !consistent_spec. intros H s k Hs Hk.
  rewrite ingest_cast, has_mergeCast. apply orb_true_iff.
  rewrite ingest_series in Hs.
  apply in_map_iff in Hs as [[k0 s0] [E Hs]]. simpl in E. subst s0.
  apply In_set in Hs as [[= _ ->]|Hs].
  - right. simpl in Hk. apply in_map_iff in Hk as [v [<- Hv]].
    apply existsb_exists. exists v. split; [assumption|].
    apply String.eqb_refl.
  - left. apply (H s); [|assumption].
    apply in_map_iff. now exists (k0, s).
Qed.

Lemma consistent_fold_ingest (list : list Item.t) : forall g : Graph.t,
  consistent g = true -> consistent (fold_left Graph.ingest list g) = true.
Proof.
  induction list as [|l list IH]; intros g Hg; simpl; [exact Hg|].
  apply IH. now apply consistent_ingest.
Qed.

(** X7: already before pruning every id on every roster is a key of the cast
    map, whatever the items and their order: a serie is recorded after its
    cast is merged, and ingestion never removes a key. *)
Theorem ingested_consistent (id : string) (list : list Item.t) (s : Serie.t)
    (k : string) :
  In s (JSMap.values (Graph.series (ingested id list))) ->
  In k (Serie.cast s) ->
  JSMap.has (Graph.cast (ingested id list)) k = true.
Proof.
  intros Hs Hk.
  pose proof (@consistent_fold_ingest list (Graph.new id) eq_refl) as H.
  rewrite consistent_spec in H. now apply (H s).
Qed.

Lemma ingested_consistent_witness :
  JSMap.has (Graph.cast (ingested "L" scenarioBC)) "D" = true.
Proof.
  apply (@ingested_consistent "L" scenarioBC
           {| Serie.id := "2"; Serie.name := "Show2";
              Serie.cast := ["A"; "B"; "C"; "D"] |} "D").
  - right. left. reflexivity.
  - simpl. tauto.
Defined.

(** ** Pruning, exactly *)

Lemma negb_leb_1 n : negb (n <=? 1) = (2 <=? n).
Proof.
  destruct (Nat.leb_spec n 1), (Nat.leb_spec 2 n); simpl; try reflexivity; lia.
Qed.

(** X8: [prune] keeps the entries of the cast map whose id is on the roster of
    two series or more, and only those, in the order they had, the records
    untouched. *)
Theorem prune_cast_exact (g : Graph.t) :
  keyedById (Graph.cast g) = true ->
  Graph.cast (Graph.prune g)
  = filter (fun e => recurring (Graph.series g) (fst e)) (Graph.cast g).
Proof.
  intros Hk. rewrite prune_cast, pruneCast_spec by assumption.
  apply filter_ext. intros e. apply negb_leb_1.
Qed.

Lemma prune_cast_exact_witness :
  Graph.cast (Graph.prune (ingested "L" scenarioBC))
  = [("A", person "A"); ("B", person "B"); ("C", person "C")].
Proof.
  apply (@prune_cast_exact (ingested "L" scenarioBC)). reflexivity.
Defined.

Lemma has_pruned_cast g k :
  keyedById (Graph.cast g) = true ->
  JSMap.has (Graph.cast (Graph.prune g)) k
  = recurring (Graph.series g) k && JSMap.has (Graph.cast g) k.
Proof.
  intros Hk. rewrite prune_cast, pruneCast_spec by assumption.
  rewrite (has_filter_key (fun k => negb (Graph.recurrence (Graph.series g) k <=? 1))).
  now rewrite negb_leb_1.
Qed.

(** X9: after [fetch] the series are those ingested, in the same order, under
    the same ids and names, and each roster is the ingested roster without
    the ids that fewer than two ingested rosters hold. *)
Theorem fetch_rosters_exact (id : string) (list : list Item.t) :
  Graph.series (Graph.fetch (Graph.new id) list)
  = map (fun e =>
           (fst e,
            {| Serie.id := Serie.id (snd e); Serie.name := Serie.name (snd e);
               Serie.cast :=
                 filter (recurring (Graph.series (ingested id list)))
                   (Serie.cast (snd e)) |}))
      (Graph.series (ingested id list)).
Proof.
  unfold Graph.fetch. fold (ingested id list). rewrite prune_series.
  unfold Graph.pruneSeries. apply map_ext_in. intros [k s] Hin.
  cbn beta. cbn [fst snd]. do 2 f_equal. apply filter_ext_in. intros i Hi.
  assert (keyedById (Graph.cast (ingested id list)) = true) as Hk.
  { pose proof (@castOk_ingest list (Graph.new id) eq_refl) as H.
    apply andb_true_iff in H. tauto. }
  rewrite has_pruned_cast by assumption.
  assert (JSMap.has (Graph.cast (ingested id list)) i = true) as ->.
  { pose proof (@consistent_fold_ingest list (Graph.new id) eq_refl) as Hc.
    rewrite consistent_spec in Hc. apply (Hc s); [|assumption].
    apply in_map_iff. now exists (k, s). }
  apply andb_true_r.
Qed.

Lemma fetch_rosters_exact_witness :
  map (fun e => Serie.cast (snd e))
    (Graph.series (Graph.fetch (Graph.new "L") scenarioBC))
  = [["A"; "B"]; ["A"; "B"; "C"]; ["C"; "A"; "B"]].
Proof.
  rewrite (@fetch_rosters_exact "L" scenarioBC). reflexivity.
Defined.

Lemma includes_spec r k : includes r k = true <-> In k r.
Proof.
  unfold includes. rewrite existsb_exists. split.
  - intros [x [Hx E]]. apply String.eqb_eq in E. now subst.
  - intros H. exists k. split; [assumption | apply String.eqb_refl].
Qed.

Lemma includes_filter q r k :
  includes (filter q r) k = includes r k && q k.
Proof.
  unfold includes. induction r as [|x r IH]; simpl; [reflexivity|].
  destruct (String.eqb_spec k x) as [->|Hne]; simpl.
  - destruct (q x) eqn:Hq; simpl.
    + now rewrite String.eqb_refl.
    + rewrite IH, ?Hq. apply andb_false_r.
  - destruct (q x); simpl; [|exact IH].
    apply String.eqb_neq in Hne. now rewrite Hne.
Qed.

Lemma length_filter_map (A B : Type) (f : A -> B) (p : B -> bool) l :
  List.length (filter p (map f l))
  = List.length (filter (fun x => p (f x)) l).
Proof.
  induction l as [|x l IH]; simpl; [reflexivity|].
  destruct (p (f x)); simpl; now rewrite IH.
Qed.

Lemma filter_id (A : Type) (f : A -> bool) l :
  (forall x, In x l -> f x = true) -> filter f l = l.
Proof.
  induction l as [|x l IH]; intros H; simpl; [reflexivity|].
  rewrite (H x) by now left. f_equal. apply IH. intros y Hy. apply H.
  now right.
Qed.

(** Filtering the rosters does not change on how many rosters a surviving
    key is. *)
Lemma recurrence_pruneSeries m s k :
  JSMap.has m k = true ->
  Graph.recurrence (Graph.pruneSeries m s) k = Graph.recurrence s k.
Proof.
  intros Hk. unfold Graph.recurrence, Graph.pruneSeries, JSMap.values.
  rewrite map_map, !length_filter_map. f_equal.
  apply filter_ext. intros e. simpl. now rewrite includes_filter, Hk, andb_true_r.
Qed.

Lemma graph_eq (a b : Graph.t) :
  Graph.cast a = Graph.cast b -> Graph.series a = Graph.series b ->
  Graph.edges a = Graph.edges b -> Graph.nodes a = Graph.nodes b ->
  Graph.id a = Graph.id b -> a = b.
Proof.
  destruct a, b. simpl. intros. now subst.
Qed.

Lemma has_entry (V : Type) (m : JSMap.t V) e : In e m -> JSMap.has m (fst e) = true.
Proof.
  intros H. apply has_keys. now apply in_map.
Qed.

Lemma prune_cast_stable g :
  keyedById (Graph.cast g) = true ->
  Graph.cast (Graph.prune (Graph.prune g)) = Graph.cast (Graph.prune g).
Proof.
  intros Hk.
  assert (keyedById (Graph.cast (Graph.prune g)) = true) as Hk'.
  { rewrite prune_cast, pruneCast_spec by assumption.
    now apply keyedById_filter. }
  rewrite (prune_cast (Graph.prune g)), pruneCast_spec by assumption.
  apply filter_id. intros e He.
  rewrite prune_series, recurrence_pruneSeries by now apply has_entry.
  rewrite prune_cast, pruneCast_spec in He by assumption.
  apply filter_In in He. tauto.
Qed.

(** X10: one pass is enough: after [prune] every cast member left is still on
    two rosters or more and every roster holds keys of the map only, so
    pruning again changes nothing. *)
Theorem prune_idempotent (g : Graph.t) :
  keyedById (Graph.cast g) = true ->
  Graph.prune (Graph.prune g) = Graph.prune g.
Proof.
  intros Hk. pose proof (prune_cast_stable g Hk) as Hc.
  apply graph_eq; try reflexivity; [exact Hc|].
  rewrite (prune_series (Graph.prune g)), Hc, (prune_series g).
  unfold Graph.pruneSeries. rewrite map_map. apply map_ext. intros e. simpl.
  do 2 f_equal. rewrite filter_twice. apply filter_ext. intros k.
  apply andb_diag.
Qed.

Lemma prune_idempotent_witness :
  Graph.prune (Graph.prune (ingested "L" scenarioA))
  = Graph.prune (ingested "L" scenarioA).
Proof.
  apply (@prune_idempotent (ingested "L" scenarioA)). reflexivity.
Defined.

(** ** When [classify] throws *)

Lemma serieEmission_None c s :
  serieEmission c s = None
  <-> exists a b, Serie.cast s = [a; b]
                  /\ (JSMap.has c a = false \/ JSMap.has c b = false).
Proof.
  unfold serieEmission, JSMap.has.
  destruct (Serie.cast s) as [|a [|b [|x l]]].
  - split; [discriminate | intros (a & b & [=] & _)].
  - split; [discriminate | intros (a' & b & [=] & _)].
  - destruct (JSMap.get c a) as [ca|] eqn:Ea;
      [destruct (JSMap.get c b) as [cb|] eqn:Eb|].
    + split; [discriminate|].
      intros (a' & b' & [= <- <-] & [H|H]);
        [rewrite Ea in H | rewrite Eb in H]; discriminate.
    + split; [|reflexivity]. intros _. exists a, b.
      split; [reflexivity|]. right. now rewrite Eb.
    + split; [|reflexivity]. intros _. exists a, b.
      split; [reflexivity|]. left. now rewrite Ea.
  - split; [discriminate | intros (a' & b' & [=] & _)].
Qed.

Lemma seriesEmission_None c l :
  seriesEmission c l = None
  <-> exists s, In s l /\ serieEmission c s = None.
Proof.
  induction l as [|s l IH]; simpl.
  - split; [discriminate | intros (s & [] & _)].
  - destruct (serieEmission c s) as [[n1 e1]|] eqn:Es.
    + destruct (seriesEmission c l) as [[n2 e2]|].
      * split; [discriminate|]. intros (s' & [<-|Hs'] & H); [congruence|].
        assert (Some (n2, e2) = None) as HN by (apply IH; eauto).
        discriminate HN.
      * split; [|reflexivity]. intros _.
        destruct (proj1 IH eq_refl) as (s' & Hs' & H). eauto.
    + split; [|reflexivity]. intros _. exists s. auto.
Qed.

(** X12: [classify] throws exactly when some serie has a roster of two of which
    one id is no key of the cast map; rosters of any other length never make
    it throw. *)
Theorem classify_throws_iff (g : Graph.t) :
  Graph.classify g = None
  <-> exists s a b,
        In s (JSMap.values (Graph.series g))
        /\ Serie.cast s = [a; b]
        /\ (JSMap.has (Graph.cast g) a = false
            \/ JSMap.has (Graph.cast g) b = false).
Proof.
  rewrite classify_emission.
  destruct (seriesEmission _ _) as [[ns es]|] eqn:E; simpl.
  - split; [discriminate|]. intros (s & a & b & Hs & Hc & H).
    assert (seriesEmission (Graph.cast g) (JSMap.values (Graph.series g))
            = None) as HN; [|congruence].
    apply seriesEmission_None. exists s. split; [assumption|].
    apply serieEmission_None. eauto.
  - split; [|reflexivity]. intros _.
    apply seriesEmission_None in E as (s & Hs & H).
    apply serieEmission_None in H as (a & b & H). exists s, a, b. tauto.
Qed.

Lemma classify_throws_iff_witness :
  Graph.classify
    {| Graph.cast := []; Graph.series := [("1", show1)];
       Graph.edges := []; Graph.nodes := []; Graph.id := "L" |}
  = None.
Proof.
  apply (proj2 (classify_throws_iff _)).
  exists show1, "A", "B". simpl. auto.
Defined.

(** ** The graph of the script, exactly *)

Lemma fetch_id list : forall g, Graph.id (Graph.fetch g list) = Graph.id g.
Proof.
  unfold Graph.fetch. simpl.
  induction list as [|l list IH]; intros g; simpl; [reflexivity|].
  now rewrite IH.
Qed.

Lemma build_emit id list :
  Graph.build id list
  = Some (emit (Graph.fetch (Graph.new id) list)
            (map Graph.castNode
               (JSMap.values (Graph.cast (Graph.fetch (Graph.new id) list)))
             ++ flat_map serieNodes
                  (JSMap.values
                     (Graph.series (Graph.fetch (Graph.new id) list))))
            (flat_map serieEdges
               (JSMap.values
                  (Graph.series (Graph.fetch (Graph.new id) list))))).
Proof.
  unfold Graph.build. apply classify_pruned. apply fetch_pruned.
Qed.

Lemma build_edges id list r :
  Graph.build id list = Some r ->
  Graph.edges r
  = flat_map serieEdges
      (JSMap.values (Graph.series (Graph.fetch (Graph.new id) list))).
Proof.
  rewrite build_emit. intros [= <-]. unfold emit. cbn [Graph.edges].
  destruct (fetch_nodes_edges list (Graph.new id)) as [_ ->]. reflexivity.
Qed.

Lemma build_nodes id list r :
  Graph.build id list = Some r ->
  Graph.nodes r
  = map Graph.castNode
      (JSMap.values (Graph.cast (Graph.fetch (Graph.new id) list)))
    ++ flat_map serieNodes
         (JSMap.values (Graph.series (Graph.fetch (Graph.new id) list))).
Proof.
  rewrite build_emit. intros [= <-]. unfold emit. cbn [Graph.nodes].
  destruct (fetch_nodes_edges list (Graph.new id)) as [-> _]. reflexivity.
Qed.

(** X13: the script leaves the two maps as [fetch] made them and builds this
    graph: first one node per cast member in the order of the cast map, then
    the hub nodes in the order of the series map; the edges serie by serie
    in the order of the series map, those of a hub in roster order. *)
Theorem build_graph_exact (id : string) (list : list Item.t) :
  Graph.build id list
  = Some
      {| Graph.cast := Graph.cast (Graph.fetch (Graph.new id) list);
         Graph.series := Graph.series (Graph.fetch (Graph.new id) list);
         Graph.edges :=
           flat_map serieEdges
             (JSMap.values (Graph.series (Graph.fetch (Graph.new id) list)));
         Graph.nodes :=
           map Graph.castNode
             (JSMap.values (Graph.cast (Graph.fetch (Graph.new id) list)))
           ++ flat_map serieNodes
                (JSMap.values
                   (Graph.series (Graph.fetch (Graph.new id) list)));
         Graph.id := id |}.
Proof.
  rewrite build_emit. f_equal.
  destruct (fetch_nodes_edges list (Graph.new id)) as [Hn He].
  apply graph_eq; unfold emit; cbn [Graph.cast Graph.series Graph.edges
                                     Graph.nodes Graph.id]; try reflexivity.
  - now rewrite He.
  - now rewrite Hn.
  - apply fetch_id.
Qed.

(** *** No cast node is left alone *)

Lemma degree_app i es es' : degree i (es ++ es') = degree i es + degree i es'.
Proof. unfold degree. now rewrite filter_app, length_app. Qed.

Lemma degree_serieEdges s i :
  includes (Serie.cast s) i = true -> 1 <= degree i (serieEdges s).
Proof.
  intros H. apply includes_spec in H. unfold serieEdges.
  assert (forall l, In i l -> 1 <= degree i (map (hubEdge s) l)) as Hhub.
  { induction l as [|x l IH]; intros Hin; [destruct Hin|].
    unfold degree. simpl. unfold touches at 1. simpl.
    destruct Hin as [->|Hin].
    - rewrite String.eqb_refl, orb_true_r. simpl. lia.
    - specialize (IH Hin). unfold degree in IH.
      destruct (_ || _); simpl; lia. }
  destruct (Serie.cast s) as [|a [|b [|x l]]] eqn:E.
  - destruct H.
  - now apply Hhub.
  - unfold degree, touches. simpl.
    destruct H as [->|[->|[]]]; rewrite String.eqb_refl;
      rewrite ?orb_true_r; simpl; lia.
  - now apply Hhub.
Qed.

Lemma degree_flat_map i l :
  List.length (filter (fun s => includes (Serie.cast s) i) l)
  <= degree i (flat_map serieEdges l).
Proof.
  induction l as [|s l IH]; simpl; [unfold degree; simpl; lia|].
  rewrite degree_app.
  destruct (includes (Serie.cast s) i) eqn:E; simpl; [|lia].
  pose proof (degree_serieEdges s i E). lia.
Qed.

(** X14: in the graph of the script every cast member is at an end of two edges
    or more: pruning left it on two rosters, and every serie puts an edge at
    each member of its roster. *)
Theorem build_cast_degree (id : string) (list : list Item.t) (c : Cast.t) :
  In c (JSMap.values (Graph.cast (Graph.fetch (Graph.new id) list))) ->
  exists r,
    Graph.build id list = Some r /\ 2 <= degree (Cast.id c) (Graph.edges r).
Proof.
  intros Hc. rewrite build_emit. eexists. split; [reflexivity|].
  rewrite (@build_edges id list) by apply build_emit.
  eapply Nat.le_trans; [|apply degree_flat_map].
  fold (Graph.recurrence (Graph.series (Graph.fetch (Graph.new id) list))
          (Cast.id c)).
  unfold Graph.fetch in *. fold (ingested id list) in *.
  assert (keyedById (Graph.cast (ingested id list)) = true) as Hk.
  { pose proof (@castOk_ingest list (Graph.new id) eq_refl) as H.
    apply andb_true_iff in H. tauto. }
  rewrite prune_series, recurrence_pruneSeries.
  - rewrite prune_cast in Hc. now apply pruneCast_values in Hc.
  - assert (keyedById (Graph.cast (Graph.prune (ingested id list))) = true)
      as Hk'.
    { rewrite prune_cast, pruneCast_spec by assumption.
      now apply keyedById_filter. }
    apply in_map_iff in Hc as [[k c'] [E Hin]]. simpl in E. subst c'.
    rewrite keyedById_spec in Hk'. rewrite <- (Hk' k c Hin).
    now apply (has_entry _ (k, c)).
Qed.

Lemma build_cast_degree_witness :
  exists r,
    Graph.build "L" scenarioA = Some r /\ 2 <= degree "X" (Graph.edges r).
Proof.
  apply (@build_cast_degree "L" scenarioA (person "X")).
  left. reflexivity.
Defined.

(** *** The series map is filed by id *)

Lemma seriesById_spec s :
  seriesById s = true <-> forall k x, In (k, x) s -> k = Serie.id x.
Proof.
  unfold seriesById. rewrite forallb_forall. split.
  - intros H k x Hin. apply String.eqb_eq. exact (H _ Hin).
  - intros H [k x] Hin. apply String.eqb_eq. simpl. auto.
Qed.

Lemma seriesById_ids s :
  seriesById s = true -> map Serie.id (JSMap.values s) = JSMap.keys s.
Proof.
  rewrite seriesById_spec. unfold JSMap.values, JSMap.keys.
  induction s as [|[k x] s IH]; intros H; simpl; [reflexivity|].
  rewrite IH.
  - f_equal. symmetry. apply H. now left.
  - intros k' x' Hin. apply H. now right.
Qed.

Lemma seriesOk_fold_ingest list : forall g,
  uniqueKeys (Graph.series g) = true -> seriesById (Graph.series g) = true ->
  uniqueKeys (Graph.series (fold_left Graph.ingest list g)) = true
  /\ seriesById (Graph.series (fold_left Graph.ingest list g)) = true.
Proof.
  induction list as [|l list IH]; intros g Hu Hs; simpl; [tauto|].
  apply IH; rewrite ingest_series.
  - now apply uniqueKeys_set.
  - rewrite seriesById_spec in *. intros k x Hin.
    apply In_set in Hin as [[= -> ->]|Hin]; [reflexivity | auto].
Qed.

Lemma pruneSeries_keys m s :
  JSMap.keys (Graph.pruneSeries m s) = JSMap.keys s.
Proof.
  unfold JSMap.keys, Graph.pruneSeries. rewrite map_map. reflexivity.
Qed.

Lemma pruneSeries_ids m s :
  map Serie.id (JSMap.values (Graph.pruneSeries m s))
  = map Serie.id (JSMap.values s).
Proof.
  unfold JSMap.values, Graph.pruneSeries. rewrite !map_map. reflexivity.
Qed.

(** The ids of the series of the fetched state are the keys of the ingested
    series map, which are distinct. *)
Lemma fetch_serie_ids id list :
  map Serie.id (JSMap.values (Graph.series (Graph.fetch (Graph.new id) list)))
  = JSMap.keys (Graph.series (ingested id list))
  /\ NoDup (JSMap.keys (Graph.series (ingested id list))).
Proof.
  destruct (@seriesOk_fold_ingest list (Graph.new id) eq_refl eq_refl)
    as [Hu Hs].
  fold (ingested id list) in Hu, Hs. split.
  - unfold Graph.fetch. fold (ingested id list).
    rewrite prune_series, pruneSeries_ids. now apply seriesById_ids.
  - now apply uniqueKeys_NoDup.
Qed.

Lemma hub_ids_incl l x :
  In x (map Node.id (flat_map serieNodes l)) -> In x (map Serie.id l).
Proof.
  intros H. apply in_map_iff in H as [n [<- Hn]].
  apply in_flat_map in Hn as [s [Hs Hn]].
  apply in_map_iff. exists s. split; [|assumption].
  unfold serieNodes in Hn.
  destruct (Serie.cast s) as [|a [|b [|y r]]];
    simpl in Hn; try tauto; destruct Hn as [<-|[]]; reflexivity.
Qed.

Lemma hub_ids_NoDup l :
  NoDup (map Serie.id l) -> NoDup (map Node.id (flat_map serieNodes l)).
Proof.
  induction l as [|s l IH]; simpl; intros H; [constructor|].
  inversion H as [|? ? Hs Hl]; subst. specialize (IH Hl).
  rewrite map_app. unfold serieNodes at 1.
  destruct (Serie.cast s) as [|a [|b [|y r]]]; simpl; try assumption;
    (constructor; [|assumption]); intros Hin; apply Hs;
    now apply hub_ids_incl.
Qed.

(** X15: when no item of the list has the id of a scraped cast member, the nodes
    of the graph have distinct ids. *)
Theorem build_node_ids_unique (id : string) (list : list Item.t) :
  (forall l l' v, In l list -> In l' list -> In v (Item.cast l') ->
                  Item.id l <> Cast.id v) ->
  exists r, Graph.build id list = Some r /\ NoDup (nodeIds r).
Proof.
  intros Hdisj. rewrite build_emit. eexists. split; [reflexivity|].
  unfold nodeIds. rewrite (@build_nodes id list) by apply build_emit.
  set (g := Graph.fetch (Graph.new id) list).
  destruct (pruned_parts _ (fetch_pruned id list)) as (Hu & Hk & _).
  fold g in Hu, Hk.
  destruct (fetch_serie_ids id list) as [Hids Hnd]. fold g in Hids.
  rewrite map_app, map_map.
  change (map (fun c => Node.id (Graph.castNode c))
            (JSMap.values (Graph.cast g)))
    with (map Cast.id (JSMap.values (Graph.cast g))).
  rewrite keyed_ids by assumption.
  apply NoDup_app.
  - now apply uniqueKeys_NoDup.
  - apply hub_ids_NoDup. now rewrite Hids.
  - intros x Hx Hhub. apply hub_ids_incl in Hhub. rewrite Hids in Hhub.
    apply in_map_iff in Hhub as [[k s] [E Hin]]. simpl in E. subst k.
    apply series_fold_ingest in Hin as [[]|(_ & l & Hl & Hid & _)].
    apply has_keys in Hx.
    assert (JSMap.has (Graph.cast (ingested id list)) x = true) as Hx0.
    { subst g. unfold Graph.fetch in Hx. fold (ingested id list) in Hx.
      assert (keyedById (Graph.cast (ingested id list)) = true) as Hk0.
      { pose proof (@castOk_ingest list (Graph.new id) eq_refl) as H.
        apply andb_true_iff in H. tauto. }
      rewrite has_pruned_cast in Hx by assumption.
      apply andb_true_iff in Hx. tauto. }
    unfold ingested in Hx0.
    apply has_fold_ingest in Hx0 as [H|(l' & v & Hl' & Hv & E)];
      [discriminate|].
    apply (Hdisj l l' v Hl Hl' Hv). congruence.
Qed.

Lemma build_node_ids_unique_witness :
  exists r, Graph.build "L" scenarioBC = Some r /\ NoDup (nodeIds r).
Proof.
  apply (@build_node_ids_unique "L" scenarioBC).
  intros l l' v Hl Hl' Hv.
  assert (In (Item.id l) ["1"; "2"; "3"]) as Hi.
  { change ["1"; "2"; "3"] with (map Item.id scenarioBC). now apply in_map. }
  assert (In (Cast.id v) ["A"; "B"; "C"; "D"]) as Hc.
  { destruct Hl' as [<-|[<-|[<-|[]]]]; simpl in Hv;
      repeat (destruct Hv as [<-|Hv]; [simpl; tauto|]); destruct Hv. }
  simpl in Hi, Hc.
  repeat (destruct Hi as [<-|Hi]; [
    repeat (destruct Hc as [<-|Hc]; [discriminate|]); destruct Hc |]).
  destruct Hi.
Defined.

(** *** What the edges look like *)

Lemma serieEdges_shape (c : Casts) s e :
  forallb (JSMap.has c) (Serie.cast s) = true ->
  In e (serieEdges s) ->
  Edge.length e = None
  /\ JSMap.has c (Edge.to e) = true
  /\ match Edge.label e with
     | Some n => n = Serie.name s /\ JSMap.has c (Edge.from e) = true
     | None => Edge.from e = Serie.id s
     end.
Proof.
  rewrite forallb_forall. intros Hs He. unfold serieEdges in He.
  assert (forall l, (forall k, In k l -> JSMap.has c k = true) ->
            In e (map (hubEdge s) l) ->
            Edge.length e = None /\ JSMap.has c (Edge.to e) = true
            /\ match Edge.label e with
               | Some n => n = Serie.name s /\ JSMap.has c (Edge.from e) = true
               | None => Edge.from e = Serie.id s
               end) as Hhub.
  { intros l Hl Hin. apply in_map_iff in Hin as [k [<- Hk]]. simpl. auto. }
  destruct (Serie.cast s) as [|a [|b [|x l]]].
  - destruct He.
  - now apply (Hhub [a]).
  - destruct He as [<-|[]]. simpl.
    repeat split; apply Hs; simpl; tauto.
  - now apply (Hhub (a :: b :: x :: l)).
Qed.

(** X16: in the graph of the script no edge has a [length]; every edge ends at a
    cast member of the map; a labelled edge carries the name of a serie and
    starts at a cast member too, an unlabeled edge starts at the id of a
    serie of the map. *)
Theorem build_edges_shape (id : string) (list : list Item.t) :
  exists r,
    Graph.build id list = Some r
    /\ Forall
         (fun e =>
            Edge.length e = None
            /\ JSMap.has (Graph.cast r) (Edge.to e) = true
            /\ match Edge.label e with
               | Some n =>
                   In n (map Serie.name (JSMap.values (Graph.series r)))
                   /\ JSMap.has (Graph.cast r) (Edge.from e) = true
               | None => In (Edge.from e) (JSMap.keys (Graph.series r))
               end)
         (Graph.edges r).
Proof.
  rewrite build_emit. eexists. split; [reflexivity|].
  rewrite (@build_edges id list) by apply build_emit.
  unfold emit. cbn [Graph.cast Graph.series].
  set (g := Graph.fetch (Graph.new id) list).
  destruct (pruned_parts _ (fetch_pruned id list)) as (_ & _ & Hc).
  fold g in Hc. unfold consistent in Hc. rewrite forallb_forall in Hc.
  apply Forall_forall. intros e He.
  apply in_flat_map in He as [s [Hs He]].
  destruct (@serieEdges_shape (Graph.cast g) s e (Hc s Hs) He)
    as (Hlen & Hto & Hlab).
  split; [assumption|]. split; [assumption|].
  destruct (Edge.label e) as [n|].
  - destruct Hlab as [-> Hfrom]. split; [now apply in_map | assumption].
  - rewrite Hlab.
    destruct (fetch_serie_ids id list) as [Hids _]. fold g in Hids.
    assert (JSMap.keys (Graph.series g)
            = JSMap.keys (Graph.series (ingested id list))) as ->.
    { subst g. unfold Graph.fetch. fold (ingested id list).
      rewrite prune_series. apply pruneSeries_keys. }
    rewrite <- Hids. now apply in_map.
Qed.

(** *** How large the graph is *)

Lemma serieNodes_length l :
  List.length (flat_map serieNodes l)
  = List.length
      (filter (fun s => negb (List.length (Serie.cast s) =? 2)
                        && negb (List.length (Serie.cast s) =? 0)) l).
Proof.
  induction l as [|s l IH]; simpl; [reflexivity|].
  rewrite length_app, IH. unfold serieNodes.
  destruct (Serie.cast s) as [|a [|b [|x r]]]; reflexivity.
Qed.

Lemma serieEdges_length l :
  List.length (flat_map serieEdges l)
  = list_sum
      (map (fun s => if List.length (Serie.cast s) =? 2 then 1
                     else List.length (Serie.cast s)) l).
Proof.
  induction l as [|s l IH]; simpl; [reflexivity|].
  rewrite length_app, IH. f_equal. unfold serieEdges.
  destruct (Serie.cast s) as [|a [|b [|x r]]]; simpl;
    now rewrite ?length_map.
Qed.

(** X17: the graph of the script has one node per cast member of the map and one
    per serie whose roster has neither two members nor none; it has one edge
    per serie with a roster of two and as many edges as the roster is long
    for any other serie. *)
Theorem build_graph_size (id : string) (list : list Item.t) :
  exists r,
    Graph.build id list = Some r
    /\ List.length (Graph.nodes r)
       = JSMap.size (Graph.cast r)
         + List.length
             (filter (fun s => negb (List.length (Serie.cast s) =? 2)
                               && negb (List.length (Serie.cast s) =? 0))
                (JSMap.values (Graph.series r)))
    /\ List.length (Graph.edges r)
       = list_sum
           (map (fun s => if List.length (Serie.cast s) =? 2 then 1
                          else List.length (Serie.cast s))
              (JSMap.values (Graph.series r))).
Proof.
  rewrite build_emit. eexists. split; [reflexivity|].
  rewrite (@build_edges id list), (@build_nodes id list) by apply build_emit.
  unfold emit. cbn [Graph.cast Graph.series].
  rewrite length_app, serieNodes_length, serieEdges_length.
  unfold JSMap.values at 1, JSMap.size. rewrite !length_map. auto.
Qed.

(** ** Running the script's steps twice on one object *)

(** X18: [processCast] and [processSeries] push onto [this.nodes] and
    [this.edges] without clearing them: run a second time on the object they
    have just filled, they push every node and every edge once more. *)
Theorem classify_twice_doubles (g r : Graph.t) :
  Graph.nodes g = [] ->
  Graph.edges g = [] ->
  Graph.classify g = Some r ->
  exists r2,
    Graph.classify r = Some r2
    /\ Graph.nodes r2 = Graph.nodes r ++ Graph.nodes r
    /\ Graph.edges r2 = Graph.edges r ++ Graph.edges r.
Proof.
  intros Hn He Hr.
  apply classify_again_pushes_again in Hr as (ns & es & -> & Hr2).
  eexists. split; [exact Hr2|].
  unfold emit. cbn [Graph.nodes Graph.edges]. rewrite Hn, He. auto.
Qed.

Lemma classify_twice_doubles_witness :
  exists r2,
    Graph.classify builtBC = Some r2
    /\ Graph.nodes r2 = Graph.nodes builtBC ++ Graph.nodes builtBC
    /\ Graph.edges r2 = Graph.edges builtBC ++ Graph.edges builtBC.
Proof.
  apply (@classify_twice_doubles (Graph.fetch (Graph.new "L") scenarioBC)
           builtBC); reflexivity.
Defined.

(** ** Who is in the graph, in terms of the list *)

Lemma set_fresh (V : Type) (m : JSMap.t V) k v :
  JSMap.has m k = false -> JSMap.set m k v = m ++ [(k, v)].
Proof.
  unfold JSMap.has. induction m as [|[k' v'] m IH]; simpl; [reflexivity|].
  destruct (String.eqb k k'); [discriminate|].
  intros H. now rewrite IH.
Qed.

(** With distinct item ids no serie overwrites another: the series map
    grows by one serie per item, in completion order. *)
Lemma series_fold_ingest_fresh list : forall g,
  NoDup (map Item.id list) ->
  (forall l, In l list -> JSMap.has (Graph.series g) (Item.id l) = false) ->
  Graph.series (fold_left Graph.ingest list g)
  = Graph.series g ++ map (fun l => (Item.id l, serieOf l)) list.
Proof.
  induction list as [|l list IH]; intros g Hnd Hfresh; simpl.
  - now rewrite app_nil_r.
  - inversion Hnd as [|? ? Hl Hlist]; subst.
    rewrite IH; [|assumption|].
    + rewrite ingest_series, set_fresh by (apply Hfresh; now left).
      now rewrite <- app_assoc.
    + intros l' Hl'. rewrite ingest_series, has_set.
      rewrite (Hfresh l') by now right. rewrite orb_false_r.
      apply String.eqb_neq. intros E. apply Hl. rewrite E. now apply in_map.
Qed.

Lemma recurrence_ingested id list k :
  NoDup (map Item.id list) ->
  Graph.recurrence (Graph.series (ingested id list)) k = mentions list k.
Proof.
  intros Hnd. unfold ingested.
  rewrite series_fold_ingest_fresh by (auto; intros; reflexivity).
  unfold Graph.recurrence, mentions, JSMap.values. simpl.
  rewrite map_map, length_filter_map. reflexivity.
Qed.

(** X11: with distinct item ids, a cast member is in the cast map after [fetch]
    exactly when the scraped cast of two items or more mentions its id, in
    whatever order the items completed. *)
Theorem fetch_survivors_by_mentions (id : string) (list : list Item.t)
    (k : string) :
  NoDup (map Item.id list) ->
  JSMap.has (Graph.cast (Graph.fetch (Graph.new id) list)) k
  = (2 <=? mentions list k).
Proof.
  intros Hnd. unfold Graph.fetch. fold (ingested id list).
  assert (keyedById (Graph.cast (ingested id list)) = true) as Hk.
  { pose proof (@castOk_ingest list (Graph.new id) eq_refl) as H.
    apply andb_true_iff in H. tauto. }
  rewrite has_pruned_cast by assumption. unfold recurring.
  rewrite recurrence_ingested by assumption.
  destruct (Nat.leb_spec 2 (mentions list k)) as [Hge|_]; [|reflexivity].
  simpl. unfold ingested. apply has_fold_ingest. right.
  unfold mentions in Hge.
  destruct (filter (fun l => includes (map Cast.id (Item.cast l)) k) list)
    as [|l rest] eqn:E; [simpl in Hge; lia|].
  assert (In l (filter (fun l => includes (map Cast.id (Item.cast l)) k) list))
    as Hl by (rewrite E; now left).
  apply filter_In in Hl as [Hl Hinc].
  apply includes_spec, in_map_iff in Hinc as [v [Hv Hin]].
  exists l, v. auto.
Qed.

Lemma fetch_survivors_by_mentions_witness :
  JSMap.has (Graph.cast (Graph.fetch (Graph.new "L") scenarioBC)) "C" = true
  /\ JSMap.has (Graph.cast (Graph.fetch (Graph.new "L") scenarioBC)) "D"
     = false.
Proof.
  assert (NoDup (map Item.id scenarioBC)) as Hnd.
  { simpl. repeat constructor; simpl; intuition discriminate. }
  split.
  - exact (@fetch_survivors_by_mentions "L" scenarioBC "C" Hnd).
  - exact (@fetch_survivors_by_mentions "L" scenarioBC "D" Hnd).
Defined.

Lemma filter_none (A : Type) (f : A -> bool) l :
  (forall x, f x = false) -> filter f l = [].
Proof.
  intros H. induction l as [|x l IH]; simpl; [reflexivity|].
  now rewrite H.
Qed.

(** X19: when nobody is on the roster of two ingested series the script still
    returns a graph, and it has no node and no edge. *)
Theorem build_nothing_recurs (id : string) (list : list Item.t) :
  (forall k, Graph.recurrence (Graph.series (ingested id list)) k <= 1) ->
  exists r,
    Graph.build id list = Some r
    /\ Graph.nodes r = [] /\ Graph.edges r = [].
Proof.
  intros Hlow. rewrite build_emit. eexists. split; [reflexivity|].
  rewrite (@build_edges id list), (@build_nodes id list) by apply build_emit.
  unfold Graph.fetch. fold (ingested id list).
  assert (keyedById (Graph.cast (ingested id list)) = true) as Hk.
  { pose proof (@castOk_ingest list (Graph.new id) eq_refl) as H.
    apply andb_true_iff in H. tauto. }
  assert (Graph.cast (Graph.prune (ingested id list)) = []) as Hc.
  { rewrite prune_cast, pruneCast_spec by assumption.
    apply filter_none. intros e. apply negb_false_iff, Nat.leb_le, Hlow. }
  rewrite Hc, prune_series, Hc. simpl.
  assert (forall s, In s (JSMap.values
                            (Graph.pruneSeries [] (Graph.series (ingested id list)))) ->
                    Serie.cast s = []) as Hnil.
  { intros s Hs. unfold JSMap.values, Graph.pruneSeries in Hs.
    rewrite map_map in Hs. apply in_map_iff in Hs as [e [<- _]]. simpl.
    now apply filter_none. }
  split; apply flat_map_nil; intros s Hs.
  - unfold serieNodes. now rewrite (Hnil s Hs).
  - unfold serieEdges. now rewrite (Hnil s Hs).
Qed.

Lemma build_nothing_recurs_witness :
  exists r,
    Graph.build "L" scenarioD = Some r
    /\ Graph.nodes r = [] /\ Graph.edges r = [].
Proof.
  apply (@build_nothing_recurs "L" scenarioD).
  intros k. unfold Graph.recurrence, ingested, includes. cbn.
  destruct (String.eqb_spec k "P") as [->|_]; cbn; [lia|].
  destruct (String.eqb k "Q"); cbn; lia.
Defined.
